(** * Floyd-Steinberg dithering (src/main.ts): a shallow embedding

    The file follows the source top to bottom: the palette, the palette
    matcher [findClosestPaletteColor], the Uint8ClampedArray the engine works
    on, and the engine [floydSteinbergDithering] with its two nested loops
    and its [distributeError] closure, then [main] as the calls it makes.
    [processImage] decodes, dithers and encodes through the canvas library;
    it is the environment of [main], not modelled further.

    Numbers.  Every Number the program computes with is an array element
    (an integer 0..255, or [undefined] when the index is outside the array),
    a palette constant, a difference of two of those, or such a difference
    times k/16.  On these values binary64 subtraction, squaring, addition
    and the multiplication by k/16 are exact, so they are modelled by exact
    integers ([Z]) and rationals ([Q]); [None] stands for NaN (which is what
    [undefined] becomes in arithmetic).  The one rounding operation of the
    matcher, [Math.sqrt], is the IEEE 754 binary64 square root, here the
    one of Rocq's primitive floats, and [distance < minDistance] is the
    binary64 comparison, false as soon as one side is NaN.

    Objects.  [new Uint8ClampedArray(data)] makes a new array; to tell it
    from the array of the input, arrays live in a heap and an [ImageData]
    refers to its array by address. *)

From Stdlib Require Import ZArith QArith Qround Floats Uint63 Ascii Lia.
From stdpp Require Import base option list list_numbers gmap strings.

Open Scope Z_scope.

(** ** Numbers *)

(** An integer-valued Number, or NaN. *)
Definition number := option Z.

(** A Number with a fractional part (a multiple of 1/16 here), or NaN. *)
Definition fraction := option Q.

Definition number_sub (a : number) (b : Z) : number :=
  match a with Some x => Some (x - b) | None => None end.

(** [e * factor] *)
Definition number_scale (e : number) (factor : Q) : fraction :=
  match e with Some x => Some (inject_Z x * factor)%Q | None => None end.

(** [a + f] *)
Definition number_add (a : number) (f : fraction) : fraction :=
  match a, f with
  | Some x, Some q => Some (inject_Z x + q)%Q
  | _, _ => None
  end.

(** The binary64 value of a non-negative integer below 2^53 (beyond 2^63
    the conversion wraps; the radicands of byte colours are at most
    [3 * 255^2]). *)
Definition float_of_Z (n : Z) : float := PrimFloat.of_uint63 (Uint63.of_Z n).

(** ** The palette (main.ts, lines 7-16) *)

Definition color := (Z * Z * Z)%type.

Definition PALETTE : list color :=
  [ (0, 0, 0);
    (255, 255, 255);
    (255, 0, 0);
    (0, 255, 0);
    (0, 0, 255);
    (255, 255, 0);
    (0, 255, 255);
    (255, 0, 255) ].

(** ** The palette matcher (main.ts, lines 19-34) *)

(** [(r - pr) ** 2 + (g - pg) ** 2 + (b - pb) ** 2]: NaN as soon as one
    channel is.  The sum is exact, as binary64 is for the channels the
    matcher receives (array elements); for channels of magnitude beyond
    about 2^26 binary64 would round, and the properties below do not speak
    of them. *)
Definition radicand (r g b : number) (p : color) : number :=
  let '(pr, pg, pb) := p in
  match r, g, b with
  | Some r, Some g, Some b => Some ((r - pr) ^ 2 + (g - pg) ^ 2 + (b - pb) ^ 2)
  | _, _, _ => None
  end.

(** [Math.sqrt(...)] *)
Definition distance (r g b : number) (p : color) : float :=
  match radicand r g b p with
  | Some n => PrimFloat.sqrt (float_of_Z n)
  | None => nan
  end.

(** One iteration of [for (const [pr, pg, pb] of PALETTE)], on the pair
    [(minDistance, closestColor)]. *)
Definition closer (r g b : number) (st : float * color) (p : color)
  : float * color :=
  let '(minDistance, closestColor) := st in
  let d := distance r g b p in
  if (d <? minDistance)%float then (d, p) else (minDistance, closestColor).

(** The matcher over an arbitrary palette; the source fixes [PALETTE]. *)
Definition findClosestPaletteColor_with
  (palette : list color) (r g b : number) : color :=
  snd (fold_left (closer r g b) palette (infinity, (0, 0, 0))).

Definition findClosestPaletteColor (r g b : number) : color :=
  findClosestPaletteColor_with PALETTE r g b.

(** The variant of the performance note: squared distances are compared
    and the square root is never taken. *)
Definition distance_squared (r g b : number) (p : color) : float :=
  match radicand r g b p with
  | Some n => float_of_Z n
  | None => nan
  end.

Definition closer_squared (r g b : number) (st : float * color) (p : color)
  : float * color :=
  let '(minDistance, closestColor) := st in
  let d := distance_squared r g b p in
  if (d <? minDistance)%float then (d, p) else (minDistance, closestColor).

Definition findClosestPaletteColor_squared_with
  (palette : list color) (r g b : number) : color :=
  snd (fold_left (closer_squared r g b) palette (infinity, (0, 0, 0))).

(** ** Uint8ClampedArray *)

(** ToUint8Clamp of ECMAScript: NaN gives 0, the value is clamped between 0
    and 255 and rounded to the nearest integer, a tie going to the even
    one. *)
Definition ToUint8Clamp (v : fraction) : Z :=
  match v with
  | None => 0
  | Some q =>
      let clamped :=
        if Qle_bool q 0 then 0%Q
        else if Qle_bool 255 q then 255%Q else q in
      let f := Qfloor clamped in
      match (clamped ?= inject_Z f + (1 # 2))%Q with
      | Lt => f
      | Gt => f + 1
      | Eq => if Z.even f then f else f + 1
      end
  end.

(** [a[i]]: [undefined] outside the array. *)
Definition array_get (a : list Z) (i : Z) : number :=
  if i <? 0 then None else a !! Z.to_nat i.

(** [a[i] = v]: the value is converted by ToUint8Clamp; a write outside the
    array is ignored. *)
Definition array_set (a : list Z) (i : Z) (v : fraction) : list Z :=
  if i <? 0 then a else <[Z.to_nat i := ToUint8Clamp v]> a.

(** [new Uint8ClampedArray(data)]: a new array holding the elements of
    [data], each converted to the element type. *)
Definition Uint8ClampedArray_from (data : list Z) : list Z :=
  map (fun v => ToUint8Clamp (Some (inject_Z v))) data.

(** ** The engine (main.ts, lines 37-88) *)

(** [getPixelIndex], a closure over [width]. *)
Definition getPixelIndex (width x y : Z) : Z := (y * width + x) * 4.

(** The loops are written once, over whatever holds the array [result]:
    [get result i] is [result[i]] and [set result i v] is [result[i] = v].
    They are run on the array itself ([array_get], [array_set]) and on the
    heap in which [result] is one object among others ([heap_get],
    [heap_set] below). *)
Section Engine.
Context {store : Type}.
Variable get : store -> Z -> number.
Variable set : store -> Z -> fraction -> store.
Variable palette : list color.
Variables width height : Z.

(** [distributeError(dx, dy, factor)], a closure over [x], [y], [error]
    and [result]; [result[i] += e * factor] reads, adds and writes back. *)
Definition distributeError (x y : Z) (error : number * number * number)
  (result : store) (dx dy : Z) (factor : Q) : store :=
  let '(e0, e1, e2) := error in
  let nx := x + dx in
  let ny := y + dy in
  if (0 <=? nx) && (nx <? width) && (0 <=? ny) && (ny <? height) then
    let nIndex := getPixelIndex width nx ny in
    let result :=
      set result nIndex
        (number_add (get result nIndex) (number_scale e0 factor)) in
    let result :=
      set result (nIndex + 1)
        (number_add (get result (nIndex + 1)) (number_scale e1 factor)) in
    set result (nIndex + 2)
      (number_add (get result (nIndex + 2)) (number_scale e2 factor))
  else result.

(** The body of the inner loop, lines 45-83. *)
Definition process_pixel (result : store) (x y : Z) : store :=
  let index := getPixelIndex width x y in
  let old0 := get result index in
  let old1 := get result (index + 1) in
  let old2 := get result (index + 2) in
  let '(new0, new1, new2) :=
    findClosestPaletteColor_with palette old0 old1 old2 in
  let result := set result index (Some (inject_Z new0)) in
  let result := set result (index + 1) (Some (inject_Z new1)) in
  let result := set result (index + 2) (Some (inject_Z new2)) in
  let error :=
    (number_sub old0 new0, number_sub old1 new1, number_sub old2 new2) in
  let result := distributeError x y error result 1 0 (7 # 16) in
  let result := distributeError x y error result (-1) 1 (3 # 16) in
  let result := distributeError x y error result 0 1 (5 # 16) in
  distributeError x y error result 1 1 (1 # 16).

(** [for (let x = 0; x < width; x++)] *)
Definition scan_row (result : store) (y : Z) : store :=
  fold_left (fun result x => process_pixel result x y) (seqZ 0 width) result.

(** [for (let y = 0; y < height; y++)] *)
Definition scan (result : store) : store :=
  fold_left scan_row (seqZ 0 height) result.

(** The state of [result] when the loops reach pixel [(x, y)]: rows
    [0..y-1] are done, and so are columns [0..x-1] of row [y]. *)
Definition mid_pass (result : store) (y x : Z) : store :=
  fold_left (fun result x' => process_pixel result x' y) (seqZ 0 x)
    (fold_left scan_row (seqZ 0 y) result).
End Engine.

(** *** Objects

    An [ImageData] holds a reference to its [data] array; the arrays live
    in a heap. *)
Abbreviation loc := positive.

Abbreviation heap := (gmap loc (list Z)).

Record ImageData := mkImageData { width : Z; height : Z; data : loc }.

Definition heap_get (l : loc) (h : heap) (i : Z) : number :=
  match h !! l with
  | Some a => array_get a i
  | None => None
  end.

Definition heap_set (l : loc) (h : heap) (i : Z) (v : fraction) : heap :=
  match h !! l with
  | Some a => <[l := array_set a i v]> h
  | None => h
  end.

(** The contents of the array at [l] (no reference of the program dangles;
    the empty array stands for one that would). *)
Definition contents (h : heap) (l : loc) : list Z := default [] (h !! l).

(** [floydSteinbergDithering], over an arbitrary palette; the result is the
    heap after the call and the returned [new ImageData(result, width,
    height)].  (The constructor is the host's; it accepts an array of
    [4 * width * height] bytes, which [result] is whenever the input is an
    [ImageData].) *)
Definition floydSteinbergDithering_with
  (palette : list color) (h : heap) (imageData : ImageData)
  : heap * ImageData :=
  let width := width imageData in
  let height := height imageData in
  let data := contents h (data imageData) in
  let result := fresh (dom h) in
  let h := <[result := Uint8ClampedArray_from data]> h in
  let h := scan (heap_get result) (heap_set result) palette width height h in
  (h, mkImageData width height result).

Definition floydSteinbergDithering (h : heap) (imageData : ImageData)
  : heap * ImageData :=
  floydSteinbergDithering_with PALETTE h imageData.

(** The engine on the contents of the array alone. *)
Definition dither_array (palette : list color) (width height : Z)
  (data : list Z) : list Z :=
  scan array_get array_set palette width height (Uint8ClampedArray_from data).

(** The palette of the scenario in the specification. *)
Definition BLACK_WHITE : list color := [ (0, 0, 0); (255, 255, 255) ].


(** ** The command line (main.ts, lines 113-132)

    [main] reads the arguments, checks that the input file exists, awaits
    [processImage] and reports.  What it does to the world is the list of
    its calls, in order; [process.exit] ends the process, so nothing
    follows it.  The file system and [processImage] (which decodes,
    dithers and encodes through the canvas library) are the environment:
    [existsSync] answers for the file system, and [processImage] tells how
    the promise of the call settles. *)

Inductive settlement :=
| Resolved
| Rejected (error : string)
| Pending.

Inductive event :=
| ConsoleError (args : list string)
| ConsoleLog (args : list string)
| ExistsSync (path : string)
| ProcessImage (inputPath outputPath : string)
| Exit (code : Z).

Definition double_quote : string := String "034"%char EmptyString.

Definition usage_message : string :=
  "Usage: ts-node main.ts <input image> <output image>".

Definition missing_message (inputPath : string) : string :=
  "Error: Input file " +:+ double_quote +:+ inputPath +:+ double_quote
  +:+ " does not exist.".

Definition success_message (outputPath : string) : string :=
  "success to generate image: " +:+ outputPath.

(** [argv] is [process.argv]; [args.length < 2] is the case in which
    [args] has no second element. *)
Definition main (argv : list string) (existsSync : string -> bool)
  (processImage : string -> string -> settlement) : list event :=
  let args := drop 2 argv in
  match args with
  | inputPath :: outputPath :: _ =>
      if negb (existsSync inputPath) then
        [ExistsSync inputPath;
         ConsoleError [missing_message inputPath];
         Exit 1]
      else
        match processImage inputPath outputPath with
        | Rejected error =>
            [ExistsSync inputPath;
             ProcessImage inputPath outputPath;
             ConsoleError ["Error processing image:"%string; error];
             Exit 1]
        | Resolved =>
            [ExistsSync inputPath;
             ProcessImage inputPath outputPath;
             ConsoleLog [success_message outputPath]]
        | Pending =>
            [ExistsSync inputPath; ProcessImage inputPath outputPath]
        end
  | _ => [ConsoleError [usage_message]; Exit 1]
  end.

(** ** Vocabulary of the properties *)

(** An element of a Uint8ClampedArray. *)
Definition is_byte (v : Z) : Prop := 0 <= v <= 255.

Definition byte_color (p : color) : Prop :=
  let '(pr, pg, pb) := p in is_byte pr /\ is_byte pg /\ is_byte pb.

(** The squared Euclidean distance, an exact integer. *)
Definition dist2 (r g b : Z) (p : color) : Z :=
  let '(pr, pg, pb) := p in (r - pr) ^ 2 + (g - pg) ^ 2 + (b - pb) ^ 2.

(** The guard of [distributeError]. *)
Definition in_bounds (width height nx ny : Z) : bool :=
  (0 <=? nx) && (nx <? width) && (0 <=? ny) && (ny <? height).

(** The four calls of [distributeError], lines 80-83. *)
Definition kernel : list (Z * Z * Q) :=
  [ (1, 0, 7 # 16); (-1, 1, 3 # 16); (0, 1, 5 # 16); (1, 1, 1 # 16) ].

(** The sum of the factors of the calls whose target passes the guard. *)
Definition applied_weight (width height x y : Z) : Q :=
  fold_right
    (fun '(dx, dy, factor) acc =>
       if in_bounds width height (x + dx) (y + dy) then (factor + acc)%Q
       else acc)
    0%Q kernel.

(** A pixel of the first or last column or of the first or last row. *)
Definition on_edge (width height x y : Z) : bool :=
  (x =? 0) || (x =? width - 1) || (y =? 0) || (y =? height - 1).

(** The RGB triple and the alpha value stored for pixel [(x, y)]. *)
Definition rgb_at (a : list Z) (width x y : Z)
  : number * number * number :=
  let index := getPixelIndex width x y in
  (array_get a index, array_get a (index + 1), array_get a (index + 2)).

Definition alpha_at (a : list Z) (width x y : Z) : number :=
  array_get a (getPixelIndex width x y + 3).

Definition rgb_of (p : color) : number * number * number :=
  let '(pr, pg, pb) := p in (Some pr, Some pg, Some pb).

(** What the constructor of [ImageData] guarantees of its [data]: one byte
    per channel, four channels per pixel. *)
Definition well_formed (width height : Z) (d : list Z) : Prop :=
  0 <= width /\ 0 <= height /\
  Z.of_nat (length d) = 4 * (width * height) /\
  Forall is_byte d.

(** [p] is the first entry of [palette] at which [key] is least: no entry
    has a smaller key, and every entry before [p] has a larger one. *)
Definition first_min (key : color -> Z) (palette : list color) (p : color)
  : Prop :=
  exists i : nat,
    palette !! i = Some p /\
    (forall q, q ∈ palette -> key p <= key q) /\
    (forall (j : nat) q, palette !! j = Some q -> (j < i)%nat -> key p < key q).

(** [p] is the palette entry nearest to [(r, g, b)], the earliest one among
    those at the least distance. *)
Definition first_closest (r g b : Z) (palette : list color) (p : color)
  : Prop :=
  first_min (dist2 r g b) palette p.

(** The loop body of the matcher for a distance given as a function: both
    [closer] and [closer_squared] are instances. *)
Definition closer_by (d : color -> float) (st : float * color) (p : color)
  : float * color :=
  if PrimFloat.ltb (d p) (fst st) then (d p, p) else st.

(** [f] is strictly increasing on the integers [0..n], and finite there:
    checked by running it on [k], [k + 1], ... *)
Fixpoint increasing_from (f : Z -> float) (k : Z) (steps : nat) : bool :=
  match steps with
  | O => true
  | S steps' =>
      PrimFloat.ltb (f k) (f (k + 1)) && PrimFloat.ltb (f k) infinity
      && increasing_from f (k + 1) steps'
  end.

Definition increasing_to (f : Z -> float) (n : Z) : bool :=
  increasing_from f 0 (Z.to_nat (n + 1)).

(** The largest squared distance between two byte colours. *)
Definition MAX_DIST2 : Z := 3 * 255 ^ 2.

(** The bytes of the image a call returns. *)
Definition dithered_with (palette : list color) (h : heap)
  (imageData : ImageData) : list Z :=
  let '(h', out) := floydSteinbergDithering_with palette h imageData in
  contents h' (data out).

Definition dithered (h : heap) (imageData : ImageData) : list Z :=
  dithered_with PALETTE h imageData.

(** The first [k] pixels of the array, in scan order, hold colours of
    [finals]. *)
Definition finalized (finals : list color) (k : Z) (a : list Z) : Prop :=
  forall m, 0 <= m < k ->
    exists p, p ∈ finals /\
      (array_get a (m * 4), array_get a (m * 4 + 1), array_get a (m * 4 + 2))
      = rgb_of p.

(** The image of the scenario in the specification: two mid-grey pixels
    side by side, opaque, in a heap of their own. *)
Definition grey_data : list Z := [128; 128; 128; 255; 128; 128; 128; 255].

Definition grey_heap : heap := {[ 1%positive := grey_data ]}.

Definition grey_image : ImageData := mkImageData 2 1 1%positive.

(** A dark pixel left of a bright one: the error of the first pushes the
    second beyond 255. *)
Definition bright_data : list Z := [100; 100; 100; 255; 250; 250; 250; 255].

(** What reading a Uint8ClampedArray yields: a byte, or [undefined] (NaN
    in the arithmetic of the matcher). *)
Definition array_element (v : number) : Prop :=
  match v with Some z => is_byte z | None => True end.

(** The nearer of 0 and 255 to a byte. *)
Definition threshold (v : Z) : Z := if v <? 128 then 0 else 255.

(** Two arrays hold the same values in channel [c] of every pixel (0 is
    red, 1 green, 2 blue, 3 alpha). *)
Definition same_channel (c : Z) (a a' : list Z) : Prop :=
  forall m, array_get a (m * 4 + c) = array_get a' (m * 4 + c).

(** * Properties *)

(** ** Some runs *)

Example ToUint8Clamp_examples :
  ToUint8Clamp (Some (725 # 10)%Q) = 72 /\
  ToUint8Clamp (Some (735 # 10)%Q) = 74 /\
  ToUint8Clamp (Some (1159 # 16)%Q) = 72 /\
  ToUint8Clamp (Some (4700 # 16)%Q) = 255 /\
  ToUint8Clamp (Some (-3 # 16)%Q) = 0 /\
  ToUint8Clamp None = 0.
Proof. vm_compute. repeat split. Qed.

Example matcher_examples :
  findClosestPaletteColor (Some 128) (Some 128) (Some 128) = (255, 255, 255) /\
  findClosestPaletteColor (Some 72) (Some 72) (Some 72) = (0, 0, 0) /\
  findClosestPaletteColor None (Some 72) (Some 72) = (0, 0, 0) /\
  findClosestPaletteColor (Some 200) (Some 20) (Some 220) = (255, 0, 255).
Proof. vm_compute. repeat split. Qed.

(** A 1x1 image: the pixel becomes its nearest palette colour and nothing
    is diffused; a 0x0 image: the loops do not run. *)
Example tiny_images :
  dither_array PALETTE 1 1 [200; 20; 220; 255] = [255; 0; 255; 255] /\
  dither_array PALETTE 0 0 [] = [].
Proof. vm_compute. split; reflexivity. Qed.

(** An array shorter than [width * height * 4]: reads beyond its end give
    [undefined], writes beyond its end are dropped. *)
Example short_array :
  dither_array PALETTE 2 1 [200; 20; 220; 255; 9] = [255; 0; 255; 255; 0].
Proof. vm_compute. reflexivity. Qed.

(** ** The binary64 order

    [<] on floats is a strict order (NaN is below and above nothing); the
    proofs go through the specification of the primitive comparison. *)

Ltac float_cases :=
  repeat match goal with
  | |- context [ (?a ?= ?b)%Z ] => destruct (Z.compare_spec a b); subst
  | |- context [ PosDef.Pos.compare_cont Eq ?a ?b ] =>
      change (PosDef.Pos.compare_cont Eq a b) with (Pos.compare a b);
      destruct (Pos.compare_spec a b); subst
  end; simpl in *; try discriminate; try reflexivity; try lia.

Lemma SFltb_trans (x y z : spec_float) :
  SFltb x y = true -> SFltb y z = true -> SFltb x z = true.
Proof.
  unfold SFltb, SFcompare.
  destruct x as [s1|s1| |s1 m1 e1], y as [s2|s2| |s2 m2 e2],
    z as [s3|s3| |s3 m3 e3];
    try destruct s1; try destruct s2; try destruct s3;
    simpl; try discriminate; try reflexivity; float_cases.
Qed.

Lemma SFltb_asym (x y : spec_float) :
  SFltb x y = true -> SFltb y x = false.
Proof.
  unfold SFltb, SFcompare.
  destruct x as [s1|s1| |s1 m1 e1], y as [s2|s2| |s2 m2 e2];
    try destruct s1; try destruct s2;
    simpl; try discriminate; try reflexivity; float_cases.
Qed.

Lemma float_lt_trans (x y z : float) :
  PrimFloat.ltb x y = true -> PrimFloat.ltb y z = true ->
  PrimFloat.ltb x z = true.
Proof. rewrite !FloatAxioms.ltb_spec. apply SFltb_trans. Qed.

Lemma float_lt_asym (x y : float) :
  PrimFloat.ltb x y = true -> PrimFloat.ltb y x = false.
Proof. rewrite !FloatAxioms.ltb_spec. apply SFltb_asym. Qed.

Lemma float_lt_irrefl (x : float) : PrimFloat.ltb x x = false.
Proof.
  destruct (PrimFloat.ltb x x) eqn:E; [|reflexivity].
  now rewrite (float_lt_asym _ _ E) in E.
Qed.

(** A function that [increasing_to] accepts turns [<] on the integers
    [0..n] into [<] on its values. *)
Section Increasing.
Variable f : Z -> float.
Variable n : Z.
Hypothesis Hinc : increasing_to f n = true.

Lemma increasing_from_at (k0 : Z) (steps : nat) (k : Z) :
  increasing_from f k0 steps = true ->
  k0 <= k < k0 + Z.of_nat steps ->
  PrimFloat.ltb (f k) (f (k + 1)) = true /\ PrimFloat.ltb (f k) infinity = true.
Proof.
  revert k0. induction steps as [|steps IH]; intros k0 Hrun Hk; [lia|].
  simpl in Hrun.
  apply andb_prop in Hrun as [Hhere Hrest].
  apply andb_prop in Hhere as [Hstep Hfin].
  destruct (Z.eq_dec k k0) as [->|Hne]; [now split|].
  apply (IH (k0 + 1)); [assumption|lia].
Qed.

Lemma increasing_at (k : Z) :
  0 <= k <= n ->
  PrimFloat.ltb (f k) (f (k + 1)) = true /\ PrimFloat.ltb (f k) infinity = true.
Proof.
  intros Hk. apply (increasing_from_at 0 (Z.to_nat (n + 1))); [exact Hinc|lia].
Qed.

Lemma increasing_lt (a b : Z) :
  0 <= a -> a < b -> b <= n -> PrimFloat.ltb (f a) (f b) = true.
Proof.
  intros Ha Hab Hb.
  assert (H : forall m : nat,
             a + 1 + Z.of_nat m <= n ->
             PrimFloat.ltb (f a) (f (a + 1 + Z.of_nat m)) = true).
  { induction m as [|m IH]; intros Hm.
    - replace (a + 1 + Z.of_nat 0) with (a + 1) by lia.
      apply increasing_at. lia.
    - apply float_lt_trans with (f (a + 1 + Z.of_nat m)).
      + apply IH. lia.
      + replace (a + 1 + Z.of_nat (S m)) with (a + 1 + Z.of_nat m + 1) by lia.
        apply increasing_at. lia. }
  specialize (H (Z.to_nat (b - a - 1))).
  replace (a + 1 + Z.of_nat (Z.to_nat (b - a - 1))) with b in H by lia.
  apply H. lia.
Qed.

Lemma increasing_ltb (a b : Z) :
  0 <= a <= n -> 0 <= b <= n ->
  PrimFloat.ltb (f a) (f b) = (a <? b).
Proof.
  intros Ha Hb. destruct (Z.ltb_spec a b) as [Hlt|Hge].
  - apply increasing_lt; lia.
  - destruct (Z.eq_dec a b) as [->|Hne].
    + apply float_lt_irrefl.
    + apply float_lt_asym, increasing_lt; lia.
Qed.

Lemma increasing_finite (a : Z) :
  0 <= a <= n -> PrimFloat.ltb (f a) infinity = true.
Proof. intros Ha. now apply increasing_at. Qed.
End Increasing.

(** [Math.sqrt] is strictly increasing on the radicands the matcher meets:
    no two of them round to the same square root. *)
Lemma sqrt_increasing :
  increasing_to (fun n => PrimFloat.sqrt (float_of_Z n)) MAX_DIST2 = true.
Proof. vm_compute. reflexivity. Qed.

Lemma float_of_Z_increasing : increasing_to float_of_Z MAX_DIST2 = true.
Proof. vm_compute. reflexivity. Qed.

(** ** The matcher *)

Lemma closer_closer_by (r g b : number) (st : float * color) (p : color) :
  closer r g b st p = closer_by (distance r g b) st p.
Proof.
  destruct st as [m c]. unfold closer, closer_by. simpl.
  now destruct PrimFloat.ltb.
Qed.

Lemma closer_squared_closer_by (r g b : number) (st : float * color)
  (p : color) :
  closer_squared r g b st p = closer_by (distance_squared r g b) st p.
Proof.
  destruct st as [m c]. unfold closer_squared, closer_by. simpl.
  now destruct PrimFloat.ltb.
Qed.

Lemma fold_closer_by (step : float * color -> color -> float * color)
  (d : color -> float) (palette : list color) (st : float * color) :
  (forall st p, step st p = closer_by d st p) ->
  fold_left step palette st = fold_left (closer_by d) palette st.
Proof.
  intros Hstep. revert st.
  induction palette as [|p palette IH]; intros st; simpl; [reflexivity|].
  now rewrite Hstep, IH.
Qed.

Lemma first_min_unique (key : color -> Z) (palette : list color)
  (p p' : color) :
  first_min key palette p -> first_min key palette p' -> p = p'.
Proof.
  intros (i & Hi & Hmin & Hbefore) (i' & Hi' & Hmin' & Hbefore').
  assert (Hp : p ∈ palette) by (eapply list_elem_of_lookup_2; eassumption).
  assert (Hp' : p' ∈ palette) by (eapply list_elem_of_lookup_2; eassumption).
  destruct (lt_eq_lt_dec i i') as [[Hlt|Heq]|Hgt].
  - specialize (Hbefore' _ _ Hi Hlt). specialize (Hmin _ Hp'). lia.
  - subst i'. congruence.
  - specialize (Hbefore _ _ Hi' Hgt). specialize (Hmin' _ Hp). lia.
Qed.

(** The loop computes the first minimum of any key that the distance
    follows through an increasing function. *)
Section Loop.
Variable f : Z -> float.
Variable n : Z.
Hypothesis Hinc : increasing_to f n = true.
Variable key : color -> Z.
Variable d : color -> float.

Let good (q : color) : Prop := 0 <= key q <= n /\ d q = f (key q).

Lemma first_min_singleton (q : color) : first_min key [q] q.
Proof.
  exists 0%nat. split; [reflexivity|]. split.
  - intros q' Hq'. apply list_elem_of_singleton in Hq'. subst. lia.
  - intros j q' _ Hj. lia.
Qed.

Lemma first_min_snoc (pre : list color) (p q : color) :
  first_min key pre p ->
  first_min key (pre ++ [q]) (if key q <? key p then q else p).
Proof.
  intros (i & Hi & Hmin & Hbefore).
  assert (Hlen : (i < length pre)%nat) by (eapply lookup_lt_Some; eassumption).
  destruct (Z.ltb_spec (key q) (key p)) as [Hlt|Hge].
  - exists (length pre). split; [|split].
    + rewrite lookup_app_r by lia. now rewrite Nat.sub_diag.
    + intros q' Hq'. apply elem_of_app in Hq' as [Hq'|Hq'].
      * specialize (Hmin _ Hq'). lia.
      * apply list_elem_of_singleton in Hq'. subst. lia.
    + intros j q' Hj Hlt'. rewrite lookup_app_l in Hj by lia.
      assert (Hq' : q' ∈ pre) by (eapply list_elem_of_lookup_2; eassumption).
      specialize (Hmin q' Hq'). lia.
  - exists i. split; [|split].
    + now rewrite lookup_app_l by lia.
    + intros q' Hq'. apply elem_of_app in Hq' as [Hq'|Hq'].
      * now apply Hmin.
      * apply list_elem_of_singleton in Hq'. now subst.
    + intros j q' Hj Hlt'. rewrite lookup_app_l in Hj by lia.
      now apply (Hbefore j).
Qed.

Lemma loop_first_min (rest pre : list color) (p : color) :
  first_min key pre p ->
  Forall good (pre ++ rest) ->
  exists p',
    fold_left (closer_by d) rest (f (key p), p) = (f (key p'), p') /\
    first_min key (pre ++ rest) p'.
Proof.
  revert pre p. induction rest as [|q rest IH]; intros pre p Hp Hgood.
  - exists p. rewrite app_nil_r. now split.
  - assert (Hq : good q).
    { rewrite Forall_forall in Hgood. apply Hgood. set_solver. }
    assert (Hpg : good p).
    { rewrite Forall_forall in Hgood. apply Hgood.
      destruct Hp as (i & Hi & _). apply elem_of_app. left.
      eapply list_elem_of_lookup_2; eassumption. }
    destruct Hq as [Hqr Hqd], Hpg as [Hpr Hpd].
    pose proof (first_min_snoc pre p q Hp) as Hsnoc.
    simpl. unfold closer_by at 2. simpl. rewrite Hqd.
    rewrite (increasing_ltb f n Hinc) by assumption.
    replace (pre ++ q :: rest) with ((pre ++ [q]) ++ rest) in *
      by now rewrite <- app_assoc.
    destruct (key q <? key p); now apply IH.
Qed.

Lemma loop_from_infinity (c0 : color) (palette : list color) :
  palette <> [] ->
  Forall good palette ->
  exists p,
    fold_left (closer_by d) palette (infinity, c0) = (f (key p), p) /\
    first_min key palette p.
Proof.
  intros Hne Hgood. destruct palette as [|q rest]; [congruence|].
  assert (Hq : good q) by now inversion Hgood.
  destruct Hq as [Hqr Hqd].
  simpl. unfold closer_by at 2. simpl. rewrite Hqd.
  rewrite (increasing_finite f n Hinc) by assumption.
  apply (loop_first_min rest [q] q); [apply first_min_singleton|assumption].
Qed.

Lemma loop_from_infinity_result (c0 : color) (palette : list color) :
  palette <> [] ->
  Forall good palette ->
  first_min key palette (snd (fold_left (closer_by d) palette (infinity, c0))).
Proof.
  intros Hne Hgood.
  destruct (loop_from_infinity c0 palette Hne Hgood) as (p & Hfold & Hmin).
  now rewrite Hfold.
Qed.
End Loop.

Lemma dist2_range (r g b : Z) (p : color) :
  is_byte r -> is_byte g -> is_byte b -> byte_color p ->
  0 <= dist2 r g b p <= MAX_DIST2.
Proof.
  destruct p as [[pr pg] pb]. unfold is_byte, byte_color, dist2, MAX_DIST2.
  intros Hr Hg Hb (Hpr & Hpg & Hpb).
  assert (Hsq : forall u v, 0 <= u <= 255 -> 0 <= v <= 255 ->
                            0 <= (u - v) ^ 2 <= 255 ^ 2) by (intros; nia).
  pose proof (Hsq r pr Hr Hpr). pose proof (Hsq g pg Hg Hpg).
  pose proof (Hsq b pb Hb Hpb). lia.
Qed.

Lemma radicand_dist2 (r g b : Z) (p : color) :
  radicand (Some r) (Some g) (Some b) p = Some (dist2 r g b p).
Proof. now destruct p as [[pr pg] pb]. Qed.

Lemma float_nan_not_lt (x : float) : PrimFloat.ltb nan x = false.
Proof. rewrite FloatAxioms.ltb_spec. reflexivity. Qed.

Lemma loop_nan (palette : list color) (st : float * color) :
  fold_left (closer_by (fun _ => nan)) palette st = st.
Proof.
  induction palette as [|p palette IH]; simpl; [reflexivity|].
  unfold closer_by at 2. now rewrite float_nan_not_lt.
Qed.

(** The matcher on a colour with a NaN channel: every distance is NaN,
    nothing compares below [minDistance], and the initial [closestColor]
    is returned. *)
Lemma matcher_nan (palette : list color) (r g b : number) :
  r = None \/ g = None \/ b = None ->
  findClosestPaletteColor_with palette r g b = (0, 0, 0) /\
  findClosestPaletteColor_squared_with palette r g b = (0, 0, 0).
Proof.
  intros Hnan.
  assert (Hrad : forall p, radicand r g b p = None).
  { intros [[pr pg] pb]. unfold radicand.
    destruct Hnan as [->|[->| ->]]; try reflexivity;
      destruct r; try reflexivity; destruct g; reflexivity. }
  unfold findClosestPaletteColor_with, findClosestPaletteColor_squared_with.
  rewrite (fold_closer_by _ (fun _ => nan)), loop_nan.
  - rewrite (fold_closer_by _ (fun _ => nan)), loop_nan; [now split|].
    intros st p. rewrite closer_squared_closer_by.
    unfold closer_by, distance_squared. now rewrite Hrad.
  - intros st p. rewrite closer_closer_by.
    unfold closer_by, distance. now rewrite Hrad.
Qed.

(** On byte colours both loops return the first closest palette entry. *)
Lemma matcher_first_closest (palette : list color) (r g b : Z) :
  palette <> [] -> Forall byte_color palette ->
  is_byte r -> is_byte g -> is_byte b ->
  first_closest r g b palette
    (findClosestPaletteColor_with palette (Some r) (Some g) (Some b)).
Proof.
  intros Hne Hpal Hr Hg Hb.
  unfold findClosestPaletteColor_with.
  rewrite (fold_closer_by _ (distance (Some r) (Some g) (Some b)))
    by apply closer_closer_by.
  apply (loop_from_infinity_result _ _ sqrt_increasing (dist2 r g b));
    [assumption|].
  eapply Forall_impl; [exact Hpal|]. intros q Hq. simpl. split.
  - now apply dist2_range.
  - unfold distance. now rewrite radicand_dist2.
Qed.

Lemma matcher_squared_first_closest (palette : list color) (r g b : Z) :
  palette <> [] -> Forall byte_color palette ->
  is_byte r -> is_byte g -> is_byte b ->
  first_closest r g b palette
    (findClosestPaletteColor_squared_with palette (Some r) (Some g) (Some b)).
Proof.
  intros Hne Hpal Hr Hg Hb.
  unfold findClosestPaletteColor_squared_with.
  rewrite (fold_closer_by _ (distance_squared (Some r) (Some g) (Some b)))
    by apply closer_squared_closer_by.
  apply (loop_from_infinity_result _ _ float_of_Z_increasing (dist2 r g b));
    [assumption|].
  eapply Forall_impl; [exact Hpal|]. intros q Hq. simpl. split.
  - now apply dist2_range.
  - unfold distance_squared. now rewrite radicand_dist2.
Qed.

(** Whatever the colour, the matcher returns a palette entry or its
    initial [closestColor]. *)
Lemma loop_result_in (d : color -> float) (palette : list color)
  (st : float * color) :
  snd (fold_left (closer_by d) palette st) = snd st \/
  snd (fold_left (closer_by d) palette st) ∈ palette.
Proof.
  revert st. induction palette as [|p palette IH]; intros st; simpl;
    [now left|].
  destruct (IH (closer_by d st p)) as [Heq|Hin].
  - rewrite Heq. unfold closer_by. destruct PrimFloat.ltb; simpl.
    + right. set_solver.
    + now left.
  - right. set_solver.
Qed.

Lemma matcher_result_in (palette : list color) (r g b : number) :
  findClosestPaletteColor_with palette r g b ∈ (0, 0, 0) :: palette.
Proof.
  unfold findClosestPaletteColor_with.
  rewrite (fold_closer_by _ (distance r g b)) by apply closer_closer_by.
  destruct (loop_result_in (distance r g b) palette (infinity, (0, 0, 0)))
    as [Heq|Hin].
  - rewrite Heq. set_solver.
  - set_solver.
Qed.

(** ** Uint8ClampedArray *)

Lemma ToUint8Clamp_is_byte (v : fraction) : is_byte (ToUint8Clamp v).
Proof.
  unfold is_byte. destruct v as [q|]; simpl; [|lia].
  set (c := if Qle_bool q 0 then 0%Q else if Qle_bool 255 q then 255%Q else q).
  assert (Hc : (0 <= c <= 255)%Q).
  { subst c. destruct (Qle_bool q 0) eqn:E0.
    - split; [apply Qle_refl|discriminate].
    - destruct (Qle_bool 255 q) eqn:E1.
      + split; [discriminate|apply Qle_refl].
      + split.
        * apply Qlt_le_weak, Qnot_le_lt. rewrite <- Qle_bool_iff. congruence.
        * apply Qlt_le_weak, Qnot_le_lt. rewrite <- Qle_bool_iff. congruence. }
  destruct Hc as [Hc0 Hc255].
  assert (Hf0 : 0 <= Qfloor c).
  { change 0 with (Qfloor 0). now apply Qfloor_resp_le. }
  assert (Hf255 : Qfloor c <= 255).
  { change 255 with (Qfloor 255). now apply Qfloor_resp_le. }
  assert (Hup : (inject_Z (Qfloor c) + (1 # 2) <= c)%Q -> Qfloor c + 1 <= 255).
  { intros Hhalf.
    assert (Hle : (inject_Z (Qfloor c) + (1 # 2) <= 255)%Q)
      by (eapply Qle_trans; eassumption).
    unfold Qle in Hle. simpl in Hle. lia. }
  destruct (Qcompare_spec c (inject_Z (Qfloor c) + (1 # 2))) as [Heq|Hlt|Hgt].
  - assert (Hle : (inject_Z (Qfloor c) + (1 # 2) <= c)%Q)
      by (apply Qle_lteq; right; symmetry; exact Heq).
    specialize (Hup Hle). destruct (Z.even (Qfloor c)); lia.
  - lia.
  - specialize (Hup (Qlt_le_weak _ _ Hgt)). lia.
Qed.

(** A byte is stored as it is. *)
Lemma ToUint8Clamp_inject_Z (z : Z) :
  is_byte z -> ToUint8Clamp (Some (inject_Z z)) = z.
Proof.
  unfold is_byte. intros Hz. simpl.
  assert (Hhalf : forall k, (inject_Z k ?= inject_Z k + (1 # 2))%Q = Lt).
  { intros k. rewrite <- Qlt_alt. unfold Qlt. simpl. lia. }
  destruct (Qle_bool (inject_Z z) 0) eqn:E0.
  - apply Qle_bool_iff in E0. unfold Qle in E0. simpl in E0.
    assert (z = 0) by lia. subst z. reflexivity.
  - destruct (Qle_bool 255 (inject_Z z)) eqn:E1.
    + apply Qle_bool_iff in E1. unfold Qle in E1. simpl in E1.
      assert (z = 255) by lia. subst z. reflexivity.
    + rewrite Qfloor_Z. now rewrite Hhalf.
Qed.

Lemma array_set_length (a : list Z) (i : Z) (v : fraction) :
  length (array_set a i v) = length a.
Proof.
  unfold array_set. destruct (i <? 0); [reflexivity|apply length_insert].
Qed.

Lemma array_get_set_eq (a : list Z) (i : Z) (v : fraction) :
  0 <= i < Z.of_nat (length a) ->
  array_get (array_set a i v) i = Some (ToUint8Clamp v).
Proof.
  intros Hi. unfold array_get, array_set.
  destruct (Z.ltb_spec i 0); [lia|].
  apply list_lookup_insert_eq. lia.
Qed.

Lemma array_get_set_ne (a : list Z) (i j : Z) (v : fraction) :
  i <> j -> array_get (array_set a i v) j = array_get a j.
Proof.
  intros Hij. unfold array_get, array_set.
  destruct (Z.ltb_spec j 0); [reflexivity|].
  destruct (Z.ltb_spec i 0); [reflexivity|].
  apply list_lookup_insert_ne. lia.
Qed.

Lemma array_get_in_range (a : list Z) (i : Z) :
  0 <= i < Z.of_nat (length a) -> exists v, array_get a i = Some v.
Proof.
  intros Hi. unfold array_get. destruct (Z.ltb_spec i 0); [lia|].
  destruct (lookup_lt_is_Some_2 a (Z.to_nat i)) as [v Hv]; [lia|].
  now exists v.
Qed.

Lemma array_set_bytes (a : list Z) (i : Z) (v : fraction) :
  Forall is_byte a -> Forall is_byte (array_set a i v).
Proof.
  intros Ha. unfold array_set. destruct (i <? 0); [assumption|].
  apply Forall_insert; [assumption|apply ToUint8Clamp_is_byte].
Qed.

Lemma Uint8ClampedArray_from_bytes (d : list Z) :
  Forall is_byte (Uint8ClampedArray_from d).
Proof.
  unfold Uint8ClampedArray_from. apply Forall_forall. intros v Hv.
  apply list_elem_of_In, in_map_iff in Hv as (u & <- & _).
  apply ToUint8Clamp_is_byte.
Qed.

Lemma Uint8ClampedArray_from_length (d : list Z) :
  length (Uint8ClampedArray_from d) = length d.
Proof. apply length_map. Qed.

(** The copy of an array of bytes holds the same bytes. *)
Lemma Uint8ClampedArray_from_id (d : list Z) :
  Forall is_byte d -> Uint8ClampedArray_from d = d.
Proof.
  unfold Uint8ClampedArray_from. induction 1 as [|v d Hv _ IH]; cbn [map].
  - reflexivity.
  - rewrite ToUint8Clamp_inject_Z by assumption. now rewrite IH.
Qed.

(** ** One call of [distributeError] *)

Lemma getPixelIndex_linear (w x y : Z) : getPixelIndex w x y = (y * w + x) * 4.
Proof. reflexivity. Qed.

Section DistributeError.
Context {store : Type}.
Variable get : store -> Z -> number.
Variable set : store -> Z -> fraction -> store.
Variables w h : Z.

(** A target outside the image is skipped. *)
Lemma distributeError_skip (x y : Z) (error : number * number * number)
  (res : store) (dx dy : Z) (factor : Q) :
  in_bounds w h (x + dx) (y + dy) = false ->
  distributeError get set w h x y error res dx dy factor = res.
Proof.
  intros Hout. destruct error as [[e0 e1] e2].
  unfold distributeError, in_bounds in *. now rewrite Hout.
Qed.

(** A target inside the image has its three colour channels updated. *)
Lemma distributeError_hit (x y : Z) (e0 e1 e2 : number)
  (res : store) (dx dy : Z) (factor : Q) :
  in_bounds w h (x + dx) (y + dy) = true ->
  distributeError get set w h x y (e0, e1, e2) res dx dy factor =
  let n := getPixelIndex w (x + dx) (y + dy) in
  let res1 := set res n (number_add (get res n) (number_scale e0 factor)) in
  let res2 :=
    set res1 (n + 1)
      (number_add (get res1 (n + 1)) (number_scale e1 factor)) in
  set res2 (n + 2) (number_add (get res2 (n + 2)) (number_scale e2 factor)).
Proof.
  intros Hin. unfold distributeError, in_bounds in *. now rewrite Hin.
Qed.
End DistributeError.

Lemma distributeError_length (w h x y : Z) (error : number * number * number)
  (a : list Z) (dx dy : Z) (factor : Q) :
  length (distributeError array_get array_set w h x y error a dx dy factor)
  = length a.
Proof.
  destruct error as [[e0 e1] e2].
  destruct (in_bounds w h (x + dx) (y + dy)) eqn:E.
  - rewrite distributeError_hit by assumption. cbv zeta.
    now rewrite !array_set_length.
  - now rewrite distributeError_skip.
Qed.

Lemma distributeError_bytes (w h x y : Z) (error : number * number * number)
  (a : list Z) (dx dy : Z) (factor : Q) :
  Forall is_byte a ->
  Forall is_byte
    (distributeError array_get array_set w h x y error a dx dy factor).
Proof.
  intros Ha. destruct error as [[e0 e1] e2].
  destruct (in_bounds w h (x + dx) (y + dy)) eqn:E.
  - rewrite distributeError_hit by assumption. cbv zeta.
    now repeat apply array_set_bytes.
  - now rewrite distributeError_skip.
Qed.

(** Only the three colour channels of the target are written. *)
Lemma distributeError_get_other (w h x y : Z)
  (error : number * number * number) (a : list Z) (dx dy : Z) (factor : Q)
  (j : Z) :
  (in_bounds w h (x + dx) (y + dy) = true ->
   j < getPixelIndex w (x + dx) (y + dy) \/
   getPixelIndex w (x + dx) (y + dy) + 2 < j) ->
  array_get
    (distributeError array_get array_set w h x y error a dx dy factor) j
  = array_get a j.
Proof.
  intros Hj. destruct error as [[e0 e1] e2].
  destruct (in_bounds w h (x + dx) (y + dy)) eqn:E.
  - specialize (Hj eq_refl).
    rewrite distributeError_hit by assumption. cbv zeta.
    rewrite !array_get_set_ne by lia. reflexivity.
  - now rewrite distributeError_skip.
Qed.

(** The value written is the old value plus the share of the error,
    converted by ToUint8Clamp. *)
Lemma distributeError_get_target (w h x y : Z) (e0 e1 e2 : number)
  (a : list Z) (dx dy : Z) (factor : Q) :
  in_bounds w h (x + dx) (y + dy) = true ->
  getPixelIndex w (x + dx) (y + dy) + 2 < Z.of_nat (length a) ->
  let n := getPixelIndex w (x + dx) (y + dy) in
  let a' :=
    distributeError array_get array_set w h x y (e0, e1, e2) a dx dy factor in
  array_get a' n =
    Some (ToUint8Clamp (number_add (array_get a n) (number_scale e0 factor))) /\
  array_get a' (n + 1) =
    Some (ToUint8Clamp
            (number_add (array_get a (n + 1)) (number_scale e1 factor))) /\
  array_get a' (n + 2) =
    Some (ToUint8Clamp
            (number_add (array_get a (n + 2)) (number_scale e2 factor))).
Proof.
  intros Hin Hlen n a'. subst a'.
  assert (Hn : 0 <= n).
  { subst n. unfold in_bounds in Hin. rewrite getPixelIndex_linear.
    apply andb_prop in Hin as [Hin Hy]. apply andb_prop in Hin as [Hin Hy0].
    apply andb_prop in Hin as [Hx0 Hx]. nia. }
  rewrite distributeError_hit by assumption. cbv zeta. fold n.
  repeat split.
  - rewrite !array_get_set_ne by lia.
    apply array_get_set_eq. lia.
  - rewrite array_get_set_ne by lia.
    rewrite array_get_set_eq by (rewrite array_set_length; lia).
    now rewrite array_get_set_ne by lia.
  - rewrite array_get_set_eq by (rewrite !array_set_length; lia).
    now rewrite !array_get_set_ne by lia.
Qed.

(** ** One pixel *)

Lemma in_bounds_spec (w h nx ny : Z) :
  in_bounds w h nx ny = true <-> 0 <= nx < w /\ 0 <= ny < h.
Proof.
  unfold in_bounds. rewrite !andb_true_iff, !Z.leb_le, !Z.ltb_lt. lia.
Qed.

Lemma pixel_index_in_range (w h x y : Z) (c : Z) :
  0 <= x < w -> 0 <= y < h -> 0 <= c < 4 ->
  0 <= getPixelIndex w x y + c < 4 * (w * h).
Proof. intros Hx Hy Hc. rewrite getPixelIndex_linear. nia. Qed.

Section Pixel.
Variable palette : list color.
Variables w h : Z.

Local Abbreviation step := (process_pixel array_get array_set palette w h).

Lemma process_pixel_length (a : list Z) (x y : Z) :
  length (step a x y) = length a.
Proof.
  unfold process_pixel.
  destruct findClosestPaletteColor_with as [[n0 n1] n2].
  now rewrite !distributeError_length, !array_set_length.
Qed.

Lemma process_pixel_bytes (a : list Z) (x y : Z) :
  Forall is_byte a -> Forall is_byte (step a x y).
Proof.
  intros Ha. unfold process_pixel.
  destruct findClosestPaletteColor_with as [[n0 n1] n2].
  repeat apply distributeError_bytes. now repeat apply array_set_bytes.
Qed.

(** The slots before the pixel are left alone: every target comes later
    in the array. *)
Lemma process_pixel_get_before (a : list Z) (x y j : Z) :
  0 <= x < w -> j < getPixelIndex w x y ->
  array_get (step a x y) j = array_get a j.
Proof.
  intros Hx Hj. unfold process_pixel.
  destruct findClosestPaletteColor_with as [[n0 n1] n2].
  rewrite getPixelIndex_linear in Hj.
  rewrite !distributeError_get_other;
    try (intros Hin%in_bounds_spec; rewrite getPixelIndex_linear; left; nia).
  rewrite !array_get_set_ne by (rewrite getPixelIndex_linear; lia).
  reflexivity.
Qed.

(** The fourth slot of every pixel is never written. *)
Lemma process_pixel_get_alpha (a : list Z) (x y m : Z) :
  array_get (step a x y) (m * 4 + 3) = array_get a (m * 4 + 3).
Proof.
  unfold process_pixel.
  destruct findClosestPaletteColor_with as [[n0 n1] n2].
  rewrite !distributeError_get_other;
    try (intros _; rewrite getPixelIndex_linear; lia).
  rewrite !array_get_set_ne by (rewrite getPixelIndex_linear; lia).
  reflexivity.
Qed.

(** The pixel itself holds what the matcher returned for its old colour. *)
Lemma process_pixel_current (a : list Z) (x y : Z) :
  0 <= x < w -> 0 <= y < h ->
  Z.of_nat (length a) = 4 * (w * h) ->
  Forall byte_color palette ->
  let index := getPixelIndex w x y in
  rgb_at (step a x y) w x y =
  rgb_of (findClosestPaletteColor_with palette
            (array_get a index) (array_get a (index + 1))
            (array_get a (index + 2))).
Proof.
  intros Hx Hy Hlen Hpal index.
  pose proof (matcher_result_in palette (array_get a index)
                (array_get a (index + 1)) (array_get a (index + 2))) as Hin.
  assert (Hbyte : byte_color
            (findClosestPaletteColor_with palette (array_get a index)
               (array_get a (index + 1)) (array_get a (index + 2)))).
  { apply elem_of_cons in Hin as [->|Hin].
    - unfold byte_color, is_byte. lia.
    - rewrite Forall_forall in Hpal. now apply Hpal. }
  unfold rgb_at, process_pixel. fold index.
  destruct findClosestPaletteColor_with as [[n0 n1] n2].
  destruct Hbyte as (H0 & H1 & H2).
  pose proof (pixel_index_in_range w h x y 0 Hx Hy ltac:(lia)) as R0.
  pose proof (pixel_index_in_range w h x y 2 Hx Hy ltac:(lia)) as R2.
  fold index in R0, R2.
  assert (Hidx : index = (y * w + x) * 4) by reflexivity.
  rewrite !distributeError_get_other;
    try (intros Hin'%in_bounds_spec; rewrite getPixelIndex_linear; left; nia).
  simpl. f_equal; [f_equal|].
  - rewrite !array_get_set_ne by lia.
    rewrite array_get_set_eq by lia.
    now rewrite ToUint8Clamp_inject_Z.
  - rewrite array_get_set_ne by lia.
    rewrite array_get_set_eq by (rewrite array_set_length; lia).
    now rewrite ToUint8Clamp_inject_Z.
  - rewrite array_get_set_eq by (rewrite !array_set_length; lia).
    now rewrite ToUint8Clamp_inject_Z.
Qed.
End Pixel.

(** ** The loops *)

(** The invariant rule of [for (let i = 0; i < n; i++)]. *)
Lemma for_loop_invariant {state : Type} (body : state -> Z -> state)
  (Inv : Z -> state -> Prop) (n : Z) (s0 : state) :
  0 <= n ->
  Inv 0 s0 ->
  (forall i s, 0 <= i < n -> Inv i s -> Inv (i + 1) (body s i)) ->
  Inv n (fold_left body (seqZ 0 n) s0).
Proof.
  intros Hn H0 Hstep.
  assert (H : forall m : nat,
             Z.of_nat m <= n ->
             Inv (Z.of_nat m) (fold_left body (seqZ 0 (Z.of_nat m)) s0)).
  { induction m as [|m IH]; intros Hm.
    - exact H0.
    - rewrite seqZ_S, fold_left_app. simpl.
      replace (Z.of_nat (S m)) with (Z.of_nat m + 1) by lia.
      apply Hstep; [lia|]. apply IH. lia. }
  specialize (H (Z.to_nat n)). rewrite Z2Nat.id in H by assumption.
  apply H. lia.
Qed.

Section Scan.
Variable palette : list color.
Variables w h : Z.
Hypothesis Hw : 0 <= w.
Hypothesis Hh : 0 <= h.

Local Abbreviation step := (process_pixel array_get array_set palette w h).
Local Abbreviation row := (scan_row array_get array_set palette w h).
Local Abbreviation mid := (mid_pass array_get array_set palette w h).

(** An invariant [Inv k a] on "the first [k] pixels are done" that every
    pixel step carries one pixel further holds at every point of the
    scan. *)
Variable Inv : Z -> list Z -> Prop.
Hypothesis Inv_step :
  forall x y a, 0 <= x < w -> 0 <= y < h ->
    Inv (y * w + x) a -> Inv (y * w + x + 1) (step a x y).

Lemma scan_row_invariant (a : list Z) (y x : Z) :
  0 <= y < h -> 0 <= x <= w ->
  Inv (y * w) a ->
  Inv (y * w + x)
    (fold_left (fun result x' => step result x' y) (seqZ 0 x) a).
Proof.
  intros Hy Hx Ha.
  apply (for_loop_invariant (fun result x' => step result x' y)
           (fun x' a' => 0 <= x' <= x -> Inv (y * w + x') a'));
    try lia.
  - intros _. now rewrite Z.add_0_r.
  - intros i s Hi Hs _. rewrite Z.add_assoc. apply Inv_step; try lia.
    apply Hs. lia.
Qed.

Lemma scan_rows_invariant (a : list Z) (y : Z) :
  0 <= y <= h ->
  Inv 0 a ->
  Inv (y * w) (fold_left row (seqZ 0 y) a).
Proof.
  intros Hy Ha.
  apply (for_loop_invariant row
           (fun y' a' => 0 <= y' <= y -> Inv (y' * w) a'));
    try lia.
  - intros _. exact Ha.
  - intros i s Hi Hs _. unfold scan_row.
    replace ((i + 1) * w) with (i * w + w) by lia.
    apply scan_row_invariant; try lia. apply Hs. lia.
Qed.

Lemma mid_pass_invariant (a : list Z) (y x : Z) :
  0 <= y < h -> 0 <= x <= w ->
  Inv 0 a ->
  Inv (y * w + x) (mid a y x).
Proof.
  intros Hy Hx Ha. unfold mid_pass.
  apply scan_row_invariant; try assumption.
  apply scan_rows_invariant; [lia|assumption].
Qed.

Lemma scan_invariant (a : list Z) :
  Inv 0 a ->
  Inv (h * w) (scan array_get array_set palette w h a).
Proof. intros Ha. unfold scan. apply scan_rows_invariant; [lia|assumption]. Qed.
End Scan.

(** ** The array in the heap

    The loops run on the heap do to the array at [result] what they do to
    an array on its own, and touch no other object. *)

Lemma heap_get_insert (l : loc) (a : list Z) (hp : heap) (i : Z) :
  heap_get l (<[l := a]> hp) i = array_get a i.
Proof. unfold heap_get. now rewrite lookup_insert_eq. Qed.

Lemma heap_set_insert (l : loc) (a : list Z) (hp : heap) (i : Z)
  (v : fraction) :
  heap_set l (<[l := a]> hp) i v = <[l := array_set a i v]> hp.
Proof. unfold heap_set. now rewrite lookup_insert_eq, insert_insert_eq. Qed.

Ltac heap_to_array :=
  cbv zeta; repeat (rewrite heap_get_insert || rewrite heap_set_insert).

Section Heap.
Variable palette : list color.
Variables w h : Z.
Variable l : loc.

Lemma distributeError_heap (x y : Z) (error : number * number * number)
  (a : list Z) (hp : heap) (dx dy : Z) (factor : Q) :
  distributeError (heap_get l) (heap_set l) w h x y error
    (<[l := a]> hp) dx dy factor
  = <[l :=
       distributeError array_get array_set w h x y error a dx dy factor]> hp.
Proof.
  destruct error as [[e0 e1] e2].
  destruct (in_bounds w h (x + dx) (y + dy)) eqn:E.
  - rewrite !distributeError_hit by assumption. now heap_to_array.
  - now rewrite !distributeError_skip.
Qed.

Lemma process_pixel_heap (a : list Z) (hp : heap) (x y : Z) :
  process_pixel (heap_get l) (heap_set l) palette w h (<[l := a]> hp) x y
  = <[l := process_pixel array_get array_set palette w h a x y]> hp.
Proof.
  unfold process_pixel. heap_to_array.
  destruct findClosestPaletteColor_with as [[n0 n1] n2].
  heap_to_array. now rewrite !distributeError_heap.
Qed.

Lemma fold_left_heap {A : Type} (body_heap : heap -> A -> heap)
  (body : list Z -> A -> list Z) (xs : list A) (a : list Z) (hp : heap) :
  (forall a x, body_heap (<[l := a]> hp) x = <[l := body a x]> hp) ->
  fold_left body_heap xs (<[l := a]> hp) = <[l := fold_left body xs a]> hp.
Proof.
  intros Hbody. revert a. induction xs as [|x xs IH]; intros a; simpl.
  - reflexivity.
  - now rewrite Hbody, IH.
Qed.

Lemma scan_heap (a : list Z) (hp : heap) :
  scan (heap_get l) (heap_set l) palette w h (<[l := a]> hp)
  = <[l := scan array_get array_set palette w h a]> hp.
Proof.
  unfold scan. apply fold_left_heap. intros a' y.
  unfold scan_row. apply fold_left_heap. intros a'' x.
  apply process_pixel_heap.
Qed.
End Heap.

(** The call allocates one array, the copy of [data], runs the loops on
    it, and returns it in a new [ImageData]. *)
Lemma floydSteinbergDithering_with_unfold (palette : list color) (hp : heap)
  (imageData : ImageData) :
  floydSteinbergDithering_with palette hp imageData =
  (<[fresh (dom hp) :=
       dither_array palette (width imageData) (height imageData)
         (contents hp (data imageData))]> hp,
   mkImageData (width imageData) (height imageData) (fresh (dom hp))).
Proof.
  unfold floydSteinbergDithering_with, dither_array. cbv zeta.
  now rewrite scan_heap.
Qed.

Lemma fresh_loc_unused (hp : heap) : hp !! fresh (dom hp) = None.
Proof. apply not_elem_of_dom, is_fresh. Qed.

Lemma dithered_with_array (palette : list color) (hp : heap)
  (imageData : ImageData) :
  dithered_with palette hp imageData =
  dither_array palette (width imageData) (height imageData)
    (contents hp (data imageData)).
Proof.
  unfold dithered_with. rewrite floydSteinbergDithering_with_unfold.
  unfold contents at 1. simpl. now rewrite lookup_insert_eq.
Qed.

(** ** Finalized pixels hold palette colours *)

Section Finalized.
Variable palette : list color.
Variables w h : Z.
Hypothesis Hw : 0 <= w.
Hypothesis Hh : 0 <= h.
Hypothesis Hpal : Forall byte_color palette.

Local Abbreviation step := (process_pixel array_get array_set palette w h).

Let Inv (k : Z) (a : list Z) : Prop :=
  Z.of_nat (length a) = 4 * (w * h) /\ finalized ((0, 0, 0) :: palette) k a.

Lemma finalized_step (x y : Z) (a : list Z) :
  0 <= x < w -> 0 <= y < h ->
  Inv (y * w + x) a -> Inv (y * w + x + 1) (step a x y).
Proof.
  intros Hx Hy [Hlen Hfin]. split.
  - now rewrite process_pixel_length.
  - intros m Hm. destruct (Z.eq_dec m (y * w + x)) as [->|Hne].
    + pose proof (process_pixel_current palette w h a x y Hx Hy Hlen Hpal)
        as Hcur.
      cbv zeta in Hcur. unfold rgb_at in Hcur.
      rewrite getPixelIndex_linear in Hcur.
      eexists. split; [|exact Hcur]. apply matcher_result_in.
    + destruct (Hfin m ltac:(lia)) as (p & Hp & Hrgb).
      exists p. split; [assumption|].
      rewrite !process_pixel_get_before
        by (try rewrite getPixelIndex_linear; lia).
      exact Hrgb.
Qed.

Lemma finalized_mid_pass (d : list Z) (y x : Z) :
  Z.of_nat (length d) = 4 * (w * h) ->
  0 <= y < h -> 0 <= x <= w ->
  finalized ((0, 0, 0) :: palette) (y * w + x)
    (mid_pass array_get array_set palette w h (Uint8ClampedArray_from d) y x).
Proof.
  intros Hlen Hy Hx.
  apply (mid_pass_invariant palette w h Hw Inv finalized_step); try assumption.
  split.
  - now rewrite Uint8ClampedArray_from_length.
  - intros m Hm. lia.
Qed.

Lemma finalized_scan (d : list Z) :
  Z.of_nat (length d) = 4 * (w * h) ->
  finalized ((0, 0, 0) :: palette) (h * w) (dither_array palette w h d).
Proof.
  intros Hlen.
  apply (scan_invariant palette w h Hw Hh Inv finalized_step).
  split.
  - now rewrite Uint8ClampedArray_from_length.
  - intros m Hm. lia.
Qed.
End Finalized.

Lemma finalized_rgb_at (finals : list color) (w h k : Z) (a : list Z)
  (x y : Z) :
  finalized finals k a -> 0 <= x < w -> 0 <= y -> y * w + x < k ->
  exists p, p ∈ finals /\ rgb_at a w x y = rgb_of p.
Proof.
  intros Hfin Hx Hy Hk. unfold rgb_at. rewrite getPixelIndex_linear.
  apply Hfin. nia.
Qed.

Lemma PALETTE_bytes : Forall byte_color PALETTE.
Proof. unfold PALETTE, byte_color, is_byte. repeat constructor; lia. Qed.

Lemma PALETTE_has_black : forall p, p ∈ (0, 0, 0) :: PALETTE -> p ∈ PALETTE.
Proof.
  intros p Hp. apply elem_of_cons in Hp as [->|Hp]; [|assumption].
  unfold PALETTE. set_solver.
Qed.

Lemma fold_left_preserves {A B : Type} (P : A -> Prop) (body : A -> B -> A)
  (xs : list B) (a : A) :
  (forall a x, P a -> P (body a x)) -> P a -> P (fold_left body xs a).
Proof.
  intros Hbody. revert a. induction xs as [|x xs IH]; intros a Ha; simpl.
  - exact Ha.
  - apply IH, Hbody, Ha.
Qed.

Lemma scan_row_bytes (palette : list color) (w h : Z) (a : list Z) (y : Z) :
  Forall is_byte a ->
  Forall is_byte (scan_row array_get array_set palette w h a y).
Proof.
  unfold scan_row. apply fold_left_preserves.
  intros a' x. apply process_pixel_bytes.
Qed.

Lemma mid_pass_bytes (palette : list color) (w h : Z) (a : list Z) (y x : Z) :
  Forall is_byte a ->
  Forall is_byte (mid_pass array_get array_set palette w h a y x).
Proof.
  intros Ha. unfold mid_pass. apply fold_left_preserves.
  - intros a' x'. apply process_pixel_bytes.
  - apply fold_left_preserves; [|exact Ha].
    intros a' y'. apply scan_row_bytes.
Qed.

Lemma scan_bytes (palette : list color) (w h : Z) (a : list Z) :
  Forall is_byte a ->
  Forall is_byte (scan array_get array_set palette w h a).
Proof.
  unfold scan. apply fold_left_preserves. intros a' y. apply scan_row_bytes.
Qed.

Lemma array_get_byte (a : list Z) (i v : Z) :
  Forall is_byte a -> array_get a i = Some v -> is_byte v.
Proof.
  intros Ha Hv. unfold array_get in Hv. destruct (i <? 0); [discriminate|].
  rewrite Forall_forall in Ha. apply Ha.
  eapply list_elem_of_lookup_2. exact Hv.
Qed.

Lemma grey_well_formed : well_formed 2 1 grey_data.
Proof.
  unfold well_formed, grey_data, is_byte.
  repeat split; try reflexivity; try lia. repeat constructor; lia.
Qed.

Lemma BLACK_WHITE_bytes : Forall byte_color BLACK_WHITE.
Proof. unfold BLACK_WHITE, byte_color, is_byte. repeat constructor; lia. Qed.

(** ** The weights *)

Lemma in_bounds_false (w h nx ny : Z) :
  in_bounds w h nx ny = false <-> ~ (0 <= nx < w /\ 0 <= ny < h).
Proof.
  rewrite <- in_bounds_spec. destruct (in_bounds w h nx ny); split; intros H;
    congruence || (exfalso; now apply H) || discriminate.
Qed.

(** The weights applied add up to 1 exactly when the pixel has a left
    neighbour, a right neighbour and a row below; the top row is no
    exception. *)
Lemma applied_weight_cases (w h x y : Z) :
  0 <= x < w -> 0 <= y < h ->
  (0 < x /\ x < w - 1 /\ y < h - 1 -> (applied_weight w h x y == 1)%Q) /\
  (~ (0 < x /\ x < w - 1 /\ y < h - 1) -> (applied_weight w h x y < 1)%Q).
Proof.
  intros Hx Hy. unfold applied_weight, kernel. cbn [fold_right].
  destruct (in_bounds w h (x + 1) (y + 0)) eqn:E1;
  destruct (in_bounds w h (x + -1) (y + 1)) eqn:E2;
  destruct (in_bounds w h (x + 0) (y + 1)) eqn:E3;
  destruct (in_bounds w h (x + 1) (y + 1)) eqn:E4;
  rewrite ?in_bounds_spec, ?in_bounds_false in *;
  (split; intros Hpos; [try lia; reflexivity|try lia; reflexivity]).
Qed.

(** ** Alpha *)

Lemma alpha_kept (palette : list color) (w h : Z) (a : list Z) (m : Z) :
  array_get (scan array_get array_set palette w h a) (m * 4 + 3)
  = array_get a (m * 4 + 3).
Proof.
  unfold scan.
  apply (fold_left_preserves
           (fun a' => array_get a' (m * 4 + 3) = array_get a (m * 4 + 3)));
    [|reflexivity].
  intros a' y Ha'. unfold scan_row.
  apply (fold_left_preserves
           (fun a'' => array_get a'' (m * 4 + 3) = array_get a (m * 4 + 3)));
    [|exact Ha'].
  intros a'' x Ha''. now rewrite process_pixel_get_alpha.
Qed.

(** ** The objects of a call *)

Lemma call_heap (palette : list color) (hp : heap) (imageData : ImageData)
  (d : list Z) :
  hp !! data imageData = Some d ->
  let '(hp', out) := floydSteinbergDithering_with palette hp imageData in
  hp' !! data imageData = Some d /\
  data out <> data imageData /\
  hp !! data out = None /\
  (forall l, l <> data out -> hp' !! l = hp !! l) /\
  hp' !! data out
  = Some (dither_array palette (width imageData) (height imageData) d) /\
  width out = width imageData /\
  height out = height imageData.
Proof.
  intros Hd. rewrite floydSteinbergDithering_with_unfold. simpl.
  pose proof (fresh_loc_unused hp) as Hfresh.
  assert (Hne : fresh (dom hp) <> data imageData) by congruence.
  repeat split.
  - now rewrite lookup_insert_ne.
  - exact Hne.
  - exact Hfresh.
  - intros l Hl. now rewrite lookup_insert_ne.
  - rewrite lookup_insert_eq. unfold contents. now rewrite Hd.
Qed.

(** ** Once visited, never written again *)

Lemma fold_left_preserves_in {A B : Type} (P : A -> Prop)
  (body : A -> B -> A) (xs : list B) (a : A) :
  (forall a x, x ∈ xs -> P a -> P (body a x)) -> P a ->
  P (fold_left body xs a).
Proof.
  revert a. induction xs as [|x xs IH]; intros a Hbody Ha; simpl.
  - exact Ha.
  - apply IH.
    + intros a' x' Hx'. apply Hbody. now right.
    + apply Hbody; [now left|exact Ha].
Qed.

Lemma seqZ_split (n k : Z) :
  0 <= k < n -> seqZ 0 n = seqZ 0 k ++ k :: seqZ (k + 1) (n - k - 1).
Proof.
  intros Hk. replace n with (k + (n - k)) at 1 by lia.
  rewrite seqZ_app by lia. f_equal.
  rewrite seqZ_cons by lia. rewrite Z.add_0_l.
  now replace (Z.succ k) with (k + 1) by lia;
    replace (Z.pred (n - k)) with (n - k - 1) by lia.
Qed.

Section Final.
Variable palette : list color.
Variables w h : Z.

Local Abbreviation step := (process_pixel array_get array_set palette w h).
Local Abbreviation row := (scan_row array_get array_set palette w h).
Local Abbreviation mid := (mid_pass array_get array_set palette w h).

(** The scan is the scan up to a pixel, the step at the pixel, the rest
    of its row and the rows below. *)
Lemma scan_from_mid_pass (a : list Z) (x y : Z) :
  0 <= x < w -> 0 <= y < h ->
  scan array_get array_set palette w h a
  = fold_left row (seqZ (y + 1) (h - y - 1))
      (fold_left (fun result x' => step result x' y)
         (seqZ (x + 1) (w - x - 1))
         (step (mid a y x) x y)).
Proof.
  intros Hx Hy. unfold scan, mid_pass.
  rewrite (seqZ_split h y Hy), fold_left_app. cbn [fold_left]. f_equal.
  unfold scan_row at 1.
  rewrite (seqZ_split w x Hx), fold_left_app. reflexivity.
Qed.

Lemma rest_keeps_visited (a : list Z) (x y j : Z) :
  0 <= x < w -> 0 <= y < h ->
  j < getPixelIndex w x y + 4 ->
  array_get (scan array_get array_set palette w h a) j
  = array_get (step (mid a y x) x y) j.
Proof.
  intros Hx Hy Hj. rewrite (scan_from_mid_pass a x y Hx Hy).
  set (visited := step (mid a y x) x y).
  rewrite getPixelIndex_linear in Hj.
  apply (fold_left_preserves_in
           (fun a' => array_get a' j = array_get visited j)).
  - intros a' y' Hy' Ha'. apply elem_of_seqZ in Hy'.
    unfold scan_row.
    apply (fold_left_preserves_in
             (fun a'' => array_get a'' j = array_get visited j));
      [|exact Ha'].
    intros a'' x' Hx' Ha''. apply elem_of_seqZ in Hx'.
    rewrite process_pixel_get_before; [exact Ha''|lia|].
    rewrite getPixelIndex_linear. nia.
  - apply (fold_left_preserves_in
             (fun a'' => array_get a'' j = array_get visited j));
      [|reflexivity].
    intros a'' x' Hx' Ha''. apply elem_of_seqZ in Hx'.
    rewrite process_pixel_get_before; [exact Ha''|lia|].
    rewrite getPixelIndex_linear. nia.
Qed.
End Final.



(** * The claims *)

(** C1.  After the engine has finished, the RGB triple of every pixel of
    the returned image is exactly an entry of the palette; and at every
    point of the scan the pixels already visited hold palette entries
    (only pixels not yet visited can hold other colours). *)
Theorem palette_membership (hp : heap) (imageData : ImageData) (d : list Z) :
  hp !! data imageData = Some d ->
  well_formed (width imageData) (height imageData) d ->
  (forall x y,
     0 <= x < width imageData -> 0 <= y < height imageData ->
     exists p, p ∈ PALETTE /\
       rgb_at (dithered hp imageData) (width imageData) x y = rgb_of p) /\
  (forall y x x' y',
     0 <= y < height imageData -> 0 <= x <= width imageData ->
     0 <= x' < width imageData -> 0 <= y' ->
     y' < y \/ (y' = y /\ x' < x) ->
     exists p, p ∈ PALETTE /\
       rgb_at
         (mid_pass array_get array_set PALETTE
            (width imageData) (height imageData)
            (Uint8ClampedArray_from d) y x)
         (width imageData) x' y' = rgb_of p).
Proof.
  intros Hd (Hw & Hh & Hlen & Hbytes).
  destruct imageData as [w h l]. simpl in *. split.
  - intros x y Hx Hy.
    unfold dithered. rewrite dithered_with_array. simpl.
    unfold contents. rewrite Hd. simpl.
    pose proof (finalized_scan PALETTE w h Hw Hh PALETTE_bytes d Hlen) as Hfin.
    destruct (finalized_rgb_at _ w h _ _ x y Hfin) as (p & Hp & Hrgb);
      try lia; [nia|].
    exists p. split; [now apply PALETTE_has_black|assumption].
  - intros y x x' y' Hy Hx Hx' Hy' Hearlier.
    pose proof (finalized_mid_pass PALETTE w h Hw PALETTE_bytes d y x
                  Hlen Hy Hx) as Hfin.
    destruct (finalized_rgb_at _ w h _ _ x' y' Hfin) as (p & Hp & Hrgb);
      try lia; [nia|].
    exists p. split; [now apply PALETTE_has_black|assumption].
Qed.

Lemma palette_membership_witness :
  exists p, p ∈ PALETTE /\
    rgb_at (dithered grey_heap grey_image) (width grey_image) 1 0 = rgb_of p.
Proof.
  pose proof (palette_membership grey_heap grey_image grey_data eq_refl
                grey_well_formed) as [Hfinal _].
  apply Hfinal; simpl; lia.
Defined.

(** C2, as the code has it.  The working buffer is a Uint8ClampedArray:
    every value written to it, by error diffusion as by quantization, is
    converted by ToUint8Clamp, so at every point of the scan, and at its
    end, every stored channel value is an integer between 0 and 255; a
    write inside the array stores exactly that conversion of the value
    assigned. *)
Theorem diffusion_is_clamped (palette : list color) (w h : Z) (d : list Z)
  (y x : Z) :
  Forall is_byte
    (mid_pass array_get array_set palette w h (Uint8ClampedArray_from d) y x)
  /\ Forall is_byte (dither_array palette w h d)
  /\ (forall v, is_byte (ToUint8Clamp v))
  /\ (forall (a : list Z) i v,
        0 <= i < Z.of_nat (length a) ->
        array_get (array_set a i v) i = Some (ToUint8Clamp v)).
Proof.
  split; [|split; [|split]].
  - apply mid_pass_bytes, Uint8ClampedArray_from_bytes.
  - apply scan_bytes, Uint8ClampedArray_from_bytes.
  - apply ToUint8Clamp_is_byte.
  - intros a i v Hi. now apply array_get_set_eq.
Qed.

(** C2, as stated, fails: no input makes a stored channel value negative
    or larger than 255 at any point of the scan.  With a pixel (100, 100,
    100) left of a pixel (250, 250, 250), the first is quantized to black,
    its error 100 sends 250 + 100 * 7/16 = 293.75 to the second, and the
    array holds 255 there when the second pixel is reached. *)
Lemma diffusion_is_clamped_counterexample :
  mid_pass array_get array_set PALETTE 2 1
    (Uint8ClampedArray_from bright_data) 0 1
  = [0; 0; 0; 255; 255; 255; 255; 255]
  /\ ~ (exists (palette : list color) (w h : Z) (d : list Z) (y x i v : Z),
          array_get
            (mid_pass array_get array_set palette w h
               (Uint8ClampedArray_from d) y x) i = Some v
          /\ (v < 0 \/ 255 < v)).
Proof.
  split.
  - vm_compute. reflexivity.
  - intros (palette & w & h & d & y & x & i & v & Hget & Hv).
    assert (Hbyte : is_byte v).
    { eapply array_get_byte; [|exact Hget].
      apply mid_pass_bytes, Uint8ClampedArray_from_bytes. }
    unfold is_byte in Hbyte. lia.
Qed.

(** C3, as the code has it.  For a pixel [(x, y)] of the image, the error
    [oldColor - newColor] goes, after the pixel is overwritten, to the four
    targets (x+1, y), (x-1, y+1), (x, y+1) and (x+1, y+1) with the factors
    7/16, 3/16, 5/16 and 1/16, in this order.  A target outside the image
    is skipped.  A target inside it gets, in each of its three colour
    channels, its old value plus the share of the error, converted by
    ToUint8Clamp (rounded, and clamped to 0..255); no other slot changes.
    The factors applied add up to 1 exactly when the pixel is not in the
    first column, the last column or the last row (so also in the first
    row), and to less than 1 otherwise. *)
Theorem error_diffusion (palette : list color) (w h : Z) (a : list Z)
  (x y : Z) :
  0 <= x < w -> 0 <= y < h ->
  let index := getPixelIndex w x y in
  let old0 := array_get a index in
  let old1 := array_get a (index + 1) in
  let old2 := array_get a (index + 2) in
  let newColor := findClosestPaletteColor_with palette old0 old1 old2 in
  let e0 := number_sub old0 newColor.1.1 in
  let e1 := number_sub old1 newColor.1.2 in
  let e2 := number_sub old2 newColor.2 in
  let quantized :=
    array_set
      (array_set
         (array_set a index (Some (inject_Z newColor.1.1)))
         (index + 1) (Some (inject_Z newColor.1.2)))
      (index + 2) (Some (inject_Z newColor.2)) in
  process_pixel array_get array_set palette w h a x y
  = fold_left
      (fun res '(dx, dy, factor) =>
         distributeError array_get array_set w h x y (e0, e1, e2)
           res dx dy factor)
      kernel quantized
  /\ (forall res dx dy factor,
        in_bounds w h (x + dx) (y + dy) = false ->
        distributeError array_get array_set w h x y (e0, e1, e2)
          res dx dy factor = res)
  /\ (forall res dx dy factor,
        in_bounds w h (x + dx) (y + dy) = true ->
        Z.of_nat (length res) = 4 * (w * h) ->
        let n := getPixelIndex w (x + dx) (y + dy) in
        let res' :=
          distributeError array_get array_set w h x y (e0, e1, e2)
            res dx dy factor in
        array_get res' n =
          Some (ToUint8Clamp
                  (number_add (array_get res n) (number_scale e0 factor))) /\
        array_get res' (n + 1) =
          Some (ToUint8Clamp
                  (number_add (array_get res (n + 1))
                     (number_scale e1 factor))) /\
        array_get res' (n + 2) =
          Some (ToUint8Clamp
                  (number_add (array_get res (n + 2))
                     (number_scale e2 factor))) /\
        forall j, j < n \/ n + 2 < j -> array_get res' j = array_get res j)
  /\ (0 < x /\ x < w - 1 /\ y < h - 1 -> (applied_weight w h x y == 1)%Q)
  /\ (~ (0 < x /\ x < w - 1 /\ y < h - 1) -> (applied_weight w h x y < 1)%Q).
Proof.
  intros Hx Hy index old0 old1 old2 newColor e0 e1 e2 quantized.
  split; [|split; [|split]].
  - unfold process_pixel. fold index. fold old0 old1 old2. fold newColor.
    subst quantized e0 e1 e2.
    destruct newColor as [[n0 n1] n2]. reflexivity.
  - intros res dx dy factor Hout. now apply distributeError_skip.
  - intros res dx dy factor Hin Hlen n res'.
    assert (Hrange : n + 2 < Z.of_nat (length res)).
    { apply in_bounds_spec in Hin as [Hnx Hny].
      pose proof (pixel_index_in_range w h (x + dx) (y + dy) 2 Hnx Hny
                    ltac:(lia)).
      subst n. lia. }
    destruct (distributeError_get_target w h x y e0 e1 e2 res dx dy factor
                Hin Hrange) as (H0 & H1 & H2).
    repeat split; try assumption.
    intros j Hj. apply distributeError_get_other. intros _. exact Hj.
  - apply applied_weight_cases; assumption.
Qed.

Lemma error_diffusion_witness :
  (applied_weight 2 1 0 0 < 1)%Q.
Proof.
  pose proof (error_diffusion BLACK_WHITE 2 1 grey_data 0 0
                ltac:(lia) ltac:(lia)) as H.
  cbv zeta in H. destruct H as (_ & _ & _ & _ & Hless).
  apply Hless. lia.
Defined.

(** C3, as stated, fails twice.  A pixel of the first row is at an edge of
    the image and yet all four of its targets are inside: in a 3x2 image
    the weights applied at (1, 0) add up to 1, not to less.  And the
    update is an addition only up to the conversion of the array: with the
    error 100 of the first pixel of [bright_data], the second holds 255
    afterwards, not 250 + 100 * 7/16 = 293.75. *)
Lemma error_diffusion_counterexample :
  on_edge 3 2 1 0 = true /\
  in_bounds 3 2 1 0 = true /\
  (applied_weight 3 2 1 0 == 1)%Q /\
  findClosestPaletteColor (Some 100) (Some 100) (Some 100) = (0, 0, 0) /\
  (inject_Z 250 + inject_Z (100 - 0) * (7 # 16) == 4700 # 16)%Q /\
  array_get
    (process_pixel array_get array_set PALETTE 2 1 bright_data 0 0) 4
  = Some 255.
Proof. vm_compute. repeat split. Qed.

(** C4.  For every colour with byte channels and every non-empty palette
    of byte colours, the matcher returns the palette entry at the least
    Euclidean distance, and among several entries at that distance the one
    that comes first in the palette: no entry is nearer (neither by the
    exact squared distance nor by the computed [distance], which nothing
    compares below), and every entry before it is strictly farther.  Such
    an entry is unique, so every call returns the same one. *)
Theorem matcher_nearest_first (palette : list color) (r g b : Z) :
  palette <> [] -> Forall byte_color palette ->
  is_byte r -> is_byte g -> is_byte b ->
  let p := findClosestPaletteColor_with palette (Some r) (Some g) (Some b) in
  let dist := distance (Some r) (Some g) (Some b) in
  (exists i : nat,
     palette !! i = Some p /\
     (forall q, q ∈ palette ->
        dist2 r g b p <= dist2 r g b q /\
        PrimFloat.ltb (dist q) (dist p) = false) /\
     (forall (j : nat) q, palette !! j = Some q -> (j < i)%nat ->
        dist2 r g b p < dist2 r g b q /\
        PrimFloat.ltb (dist p) (dist q) = true)) /\
  (forall q, first_closest r g b palette q -> q = p).
Proof.
  intros Hne Hpal Hr Hg Hb p dist.
  pose proof (matcher_first_closest palette r g b Hne Hpal Hr Hg Hb) as Hfirst.
  fold p in Hfirst. split.
  - destruct Hfirst as (i & Hi & Hmin & Hbefore).
    assert (Hrange : forall q,
               q ∈ palette -> 0 <= dist2 r g b q <= MAX_DIST2).
    { intros q Hq. apply dist2_range; try assumption.
      rewrite Forall_forall in Hpal. now apply Hpal. }
    assert (Hdist : forall q,
               dist q = PrimFloat.sqrt (float_of_Z (dist2 r g b q))).
    { intros q. subst dist. unfold distance. now rewrite radicand_dist2. }
    assert (Hp : p ∈ palette) by (eapply list_elem_of_lookup_2; exact Hi).
    exists i. split; [exact Hi|]. split.
    + intros q Hq. split; [now apply Hmin|].
      rewrite !Hdist.
      rewrite (increasing_ltb _ _ sqrt_increasing) by now apply Hrange.
      apply Z.ltb_ge. now apply Hmin.
    + intros j q Hj Hlt.
      assert (Hq : q ∈ palette) by (eapply list_elem_of_lookup_2; exact Hj).
      split; [now apply (Hbefore j)|].
      rewrite !Hdist.
      rewrite (increasing_ltb _ _ sqrt_increasing) by now apply Hrange.
      apply Z.ltb_lt. now apply (Hbefore j).
  - intros q Hq. eapply first_min_unique; eassumption.
Qed.

Lemma matcher_nearest_first_witness :
  let p :=
    findClosestPaletteColor_with BLACK_WHITE (Some 128) (Some 128) (Some 128) in
  let dist := distance (Some 128) (Some 128) (Some 128) in
  (exists i : nat,
     BLACK_WHITE !! i = Some p /\
     (forall q, q ∈ BLACK_WHITE ->
        dist2 128 128 128 p <= dist2 128 128 128 q /\
        PrimFloat.ltb (dist q) (dist p) = false) /\
     (forall (j : nat) q, BLACK_WHITE !! j = Some q -> (j < i)%nat ->
        dist2 128 128 128 p < dist2 128 128 128 q /\
        PrimFloat.ltb (dist p) (dist q) = true)) /\
  (forall q, first_closest 128 128 128 BLACK_WHITE q -> q = p).
Proof.
  apply (matcher_nearest_first BLACK_WHITE 128 128 128);
    try (unfold is_byte; lia).
  - discriminate.
  - exact BLACK_WHITE_bytes.
Defined.

(** C5, as the code has it.  In the 2x1 scenario with the palette black,
    white and both pixels (128, 128, 128), pixel (0, 0) is not equidistant
    from the two entries: white is strictly nearer (squared distances
    3 * 127^2 = 48387 against 3 * 128^2 = 49152), so no tie is broken and
    the pixel becomes (255, 255, 255).  Its error is (-127, -127, -127);
    with the factor 7/16 it makes pixel (1, 0) hold
    128 - 127 * 7/16 = 72.4375, stored as 72, before that pixel is visited,
    and pixel (1, 0) is then quantized, on that value, to (0, 0, 0).  The
    palette of the source gives the same image. *)
Theorem grey_scenario :
  dist2 128 128 128 (0, 0, 0) = 49152 /\
  dist2 128 128 128 (255, 255, 255) = 48387 /\
  findClosestPaletteColor_with BLACK_WHITE (Some 128) (Some 128) (Some 128)
  = (255, 255, 255) /\
  number_sub (Some 128) 255 = Some (-127) /\
  number_add (Some 128) (number_scale (Some (-127)) (7 # 16))
  = Some (inject_Z 128 + inject_Z (-127) * (7 # 16))%Q /\
  (inject_Z 128 + inject_Z (-127) * (7 # 16) == 1159 # 16)%Q /\
  ToUint8Clamp (Some (inject_Z 128 + inject_Z (-127) * (7 # 16))%Q) = 72 /\
  mid_pass array_get array_set BLACK_WHITE 2 1
    (Uint8ClampedArray_from grey_data) 0 1
  = [255; 255; 255; 255; 72; 72; 72; 255] /\
  findClosestPaletteColor_with BLACK_WHITE (Some 72) (Some 72) (Some 72)
  = (0, 0, 0) /\
  dithered_with BLACK_WHITE grey_heap grey_image
  = [255; 255; 255; 255; 0; 0; 0; 255] /\
  dithered grey_heap grey_image = [255; 255; 255; 255; 0; 0; 0; 255].
Proof. vm_compute. repeat split. Qed.

(** C5, as stated, fails: (128, 128, 128) is not at the same distance from
    black and from white, the matcher does not return (0, 0, 0) for it, and
    the error is not (128, 128, 128). *)
Lemma grey_scenario_counterexample :
  dist2 128 128 128 (0, 0, 0) <> dist2 128 128 128 (255, 255, 255) /\
  PrimFloat.ltb
    (distance (Some 128) (Some 128) (Some 128) (255, 255, 255))
    (distance (Some 128) (Some 128) (Some 128) (0, 0, 0)) = true /\
  findClosestPaletteColor_with BLACK_WHITE (Some 128) (Some 128) (Some 128)
  <> (0, 0, 0) /\
  number_sub (Some 128)
    (findClosestPaletteColor_with BLACK_WHITE
       (Some 128) (Some 128) (Some 128)).1.1
  <> Some 128.
Proof. vm_compute. repeat split; discriminate. Qed.



(** C7.  The alpha value of every pixel is the same after dithering as
    before: no write of the scan goes to the fourth slot of a pixel. *)
Theorem alpha_passthrough (palette : list color) (hp : heap)
  (imageData : ImageData) (d : list Z) (x y : Z) :
  hp !! data imageData = Some d ->
  well_formed (width imageData) (height imageData) d ->
  0 <= x < width imageData -> 0 <= y < height imageData ->
  alpha_at (dithered_with palette hp imageData) (width imageData) x y
  = alpha_at d (width imageData) x y
  /\ exists v, alpha_at d (width imageData) x y = Some v.
Proof.
  intros Hd (Hw & Hh & Hlen & Hbytes) Hx Hy. split.
  - rewrite dithered_with_array. unfold contents. rewrite Hd. simpl.
    unfold alpha_at, dither_array. rewrite getPixelIndex_linear.
    rewrite alpha_kept. now rewrite Uint8ClampedArray_from_id.
  - unfold alpha_at. apply array_get_in_range.
    pose proof (pixel_index_in_range _ _ x y 3 Hx Hy ltac:(lia)). lia.
Qed.

Lemma alpha_passthrough_witness :
  alpha_at (dithered_with PALETTE grey_heap grey_image) (width grey_image) 1 0
  = alpha_at grey_data (width grey_image) 1 0.
Proof.
  apply (alpha_passthrough PALETTE grey_heap grey_image grey_data 1 0).
  - reflexivity.
  - exact grey_well_formed.
  - simpl. lia.
  - simpl. lia.
Defined.

(** C8.  The output depends on the bytes, the width and the height of the
    input only: two calls on images with the same bytes and dimensions,
    in whatever heaps and at whatever addresses, return images with the
    same bytes; in particular a second call on the same image, in the heap
    the first call left, returns the bytes and the dimensions the first
    returned. *)
Theorem dithering_deterministic (palette : list color) (hp1 hp2 : heap)
  (img1 img2 : ImageData) (d : list Z) :
  hp1 !! data img1 = Some d -> hp2 !! data img2 = Some d ->
  width img1 = width img2 -> height img1 = height img2 ->
  dithered_with palette hp1 img1 = dithered_with palette hp2 img2 /\
  (let '(hp1', out1) := floydSteinbergDithering_with palette hp1 img1 in
   let '(hp1'', out2) := floydSteinbergDithering_with palette hp1' img1 in
   contents hp1'' (data out2) = contents hp1' (data out1) /\
   width out2 = width out1 /\ height out2 = height out1).
Proof.
  intros Hd1 Hd2 Hw Hh. split.
  - rewrite !dithered_with_array. unfold contents.
    now rewrite Hd1, Hd2, Hw, Hh.
  - pose proof (call_heap palette hp1 img1 d Hd1) as Hcall1.
    destruct (floydSteinbergDithering_with palette hp1 img1) as [hp1' out1].
    destruct Hcall1 as (Hkept & _ & _ & _ & Hout1 & Hw1 & Hh1).
    pose proof (call_heap palette hp1' img1 d Hkept) as Hcall2.
    destruct (floydSteinbergDithering_with palette hp1' img1) as [hp1'' out2].
    destruct Hcall2 as (_ & _ & _ & _ & Hout2 & Hw2 & Hh2).
    unfold contents. rewrite Hout1, Hout2. simpl.
    repeat split; congruence.
Qed.

Lemma dithering_deterministic_witness :
  dithered_with PALETTE grey_heap grey_image
  = dithered_with PALETTE (<[ 7%positive := grey_data ]> grey_heap)
      (mkImageData 2 1 7%positive).
Proof.
  apply (dithering_deterministic PALETTE grey_heap
           (<[ 7%positive := grey_data ]> grey_heap)
           grey_image (mkImageData 2 1 7%positive) grey_data);
    reflexivity.
Defined.

(** C9.  On every colour the engine can pass (each channel a byte, or
    NaN for a read outside the array) and every palette of byte colours,
    the matcher that compares squared distances returns the same entry as
    the matcher of the source, ties included. *)
Theorem squared_matcher_agrees (palette : list color) (r g b : number) :
  Forall byte_color palette ->
  array_element r -> array_element g -> array_element b ->
  findClosestPaletteColor_squared_with palette r g b
  = findClosestPaletteColor_with palette r g b.
Proof.
  intros Hpal Hr Hg Hb.
  destruct r as [r|]; [destruct g as [g|]; [destruct b as [b|]|]|].
  - destruct palette as [|p0 rest] eqn:E; [reflexivity|]. rewrite <- E in *.
    assert (Hne : palette <> []) by (rewrite E; discriminate).
    apply (first_min_unique (dist2 r g b) palette).
    + now apply matcher_squared_first_closest.
    + now apply matcher_first_closest.
  - destruct (matcher_nan palette (Some r) (Some g) None) as [-> ->]; auto.
  - destruct (matcher_nan palette (Some r) None b) as [-> ->]; auto.
  - destruct (matcher_nan palette None g b) as [-> ->]; auto.
Qed.

Lemma squared_matcher_agrees_witness :
  findClosestPaletteColor_squared_with PALETTE (Some 128) (Some 128) (Some 128)
  = findClosestPaletteColor_with PALETTE (Some 128) (Some 128) (Some 128).
Proof.
  apply (squared_matcher_agrees PALETTE (Some 128) (Some 128) (Some 128)).
  - exact PALETTE_bytes.
  - simpl. unfold is_byte. lia.
  - simpl. unfold is_byte. lia.
  - simpl. unfold is_byte. lia.
Defined.

(** C10.  The engine does not write to its input: after the call the
    array of the input image holds what it held; the array of the returned
    image is a new object, distinct from it and from every object of the
    heap before the call, no other object has changed, and the returned
    image has the dimensions of the input. *)
Theorem input_not_mutated (hp : heap) (imageData : ImageData) (d : list Z) :
  hp !! data imageData = Some d ->
  let '(hp', out) := floydSteinbergDithering hp imageData in
  hp' !! data imageData = Some d /\
  data out <> data imageData /\
  hp !! data out = None /\
  (forall l, l <> data out -> hp' !! l = hp !! l) /\
  hp' !! data out
  = Some (dither_array PALETTE (width imageData) (height imageData) d) /\
  width out = width imageData /\
  height out = height imageData.
Proof. intros Hd. now apply call_heap. Qed.

Lemma input_not_mutated_witness :
  let '(hp', out) := floydSteinbergDithering grey_heap grey_image in
  hp' !! data grey_image = Some grey_data /\
  data out <> data grey_image /\
  grey_heap !! data out = None /\
  (forall l, l <> data out -> hp' !! l = grey_heap !! l) /\
  hp' !! data out
  = Some (dither_array PALETTE (width grey_image) (height grey_image)
            grey_data) /\
  width out = width grey_image /\
  height out = height grey_image.
Proof.
  exact (input_not_mutated grey_heap grey_image grey_data eq_refl).
Defined.

(** * Further properties of the matcher *)

Lemma PALETTE_cases (q : color) :
  q ∈ PALETTE ->
  q = (0, 0, 0) \/ q = (255, 255, 255) \/ q = (255, 0, 0) \/ q = (0, 255, 0) \/
  q = (0, 0, 255) \/ q = (255, 255, 0) \/ q = (0, 255, 255) \/
  q = (255, 0, 255).
Proof. unfold PALETTE. rewrite !elem_of_cons, elem_of_nil. tauto. Qed.

(** The palette is the set of corners of the colour cube, so the nearest
    entry is found channel by channel, and no byte is as near to 0 as to
    255: the minimum is strict. *)
Lemma threshold_strictly_nearest (r g b : Z) (q : color) :
  is_byte r -> is_byte g -> is_byte b ->
  q ∈ PALETTE -> q <> (threshold r, threshold g, threshold b) ->
  dist2 r g b (threshold r, threshold g, threshold b) < dist2 r g b q.
Proof.
  unfold is_byte, threshold, dist2. intros Hr Hg Hb Hq Hne.
  apply PALETTE_cases in Hq.
  destruct (Z.ltb_spec r 128), (Z.ltb_spec g 128), (Z.ltb_spec b 128);
    destruct Hq as [->|[->|[->|[->|[->|[->|[->| ->]]]]]]];
    try congruence; lia.
Qed.

Lemma threshold_in_PALETTE (r g b : Z) :
  (threshold r, threshold g, threshold b) ∈ PALETTE.
Proof.
  unfold threshold, PALETTE.
  destruct (r <? 128), (g <? 128), (b <? 128); set_solver.
Qed.

(** X1.  With the palette of the source the matcher works channel by
    channel: a byte below 128 goes to 0, a byte from 128 on goes to 255.
    No tie ever occurs, and the quantization error of a channel lies
    between -127 and 127. *)
Theorem matcher_is_threshold (r g b : Z) :
  is_byte r -> is_byte g -> is_byte b ->
  findClosestPaletteColor (Some r) (Some g) (Some b)
  = (threshold r, threshold g, threshold b)
  /\ -127 <= r - threshold r <= 127
  /\ -127 <= g - threshold g <= 127
  /\ -127 <= b - threshold b <= 127.
Proof.
  intros Hr Hg Hb. split.
  - unfold findClosestPaletteColor.
    pose proof (matcher_first_closest PALETTE r g b ltac:(discriminate)
                  PALETTE_bytes Hr Hg Hb) as (i & Hi & Hmin & _).
    set (p := findClosestPaletteColor_with PALETTE (Some r) (Some g) (Some b))
      in *.
    destruct (decide (p = (threshold r, threshold g, threshold b)))
      as [Heq|Hne]; [exact Heq|].
    assert (Hp : p ∈ PALETTE) by (eapply list_elem_of_lookup_2; exact Hi).
    pose proof (threshold_strictly_nearest r g b p Hr Hg Hb Hp Hne) as Hlt.
    pose proof (Hmin _ (threshold_in_PALETTE r g b)) as Hle.
    lia.
  - unfold is_byte, threshold in *.
    destruct (Z.ltb_spec r 128), (Z.ltb_spec g 128), (Z.ltb_spec b 128); lia.
Qed.

Lemma matcher_is_threshold_witness :
  findClosestPaletteColor (Some 200) (Some 20) (Some 220)
  = (threshold 200, threshold 20, threshold 220)
  /\ -127 <= 200 - threshold 200 <= 127
  /\ -127 <= 20 - threshold 20 <= 127
  /\ -127 <= 220 - threshold 220 <= 127.
Proof.
  apply (matcher_is_threshold 200 20 220); unfold is_byte; lia.
Defined.

(** X2.  For every colour read from the array (each channel a byte, or
    undefined, that is NaN) the matcher of the source returns one of the
    eight palette entries; as soon as one channel is NaN it returns black.
    Indeed the loop returns a palette entry whatever distances it
    computes. *)
Theorem matcher_total (r g b : number) :
  array_element r -> array_element g -> array_element b ->
  findClosestPaletteColor r g b ∈ PALETTE /\
  (r = None \/ g = None \/ b = None ->
   findClosestPaletteColor r g b = (0, 0, 0)) /\
  (forall d : color -> float,
     snd (fold_left (closer_by d) PALETTE (infinity, (0, 0, 0))) ∈ PALETTE).
Proof.
  intros _ _ _. split; [|split].
  - apply PALETTE_has_black, matcher_result_in.
  - intros Hnan. now apply matcher_nan.
  - intros d. apply PALETTE_has_black.
    destruct (loop_result_in d PALETTE (infinity, (0, 0, 0))) as [Heq|Hin].
    + rewrite Heq. now left.
    + now right.
Qed.

Lemma matcher_total_witness :
  findClosestPaletteColor (Some 200) None (Some 7) ∈ PALETTE /\
  (Some 200 = None \/ @None Z = None \/ Some 7 = None ->
   findClosestPaletteColor (Some 200) None (Some 7) = (0, 0, 0)) /\
  (forall d : color -> float,
     snd (fold_left (closer_by d) PALETTE (infinity, (0, 0, 0))) ∈ PALETTE).
Proof.
  apply (matcher_total (Some 200) None (Some 7)); simpl;
    unfold is_byte; try lia; exact I.
Defined.

Lemma sum_of_squares_zero (u v w : Z) :
  u ^ 2 + v ^ 2 + w ^ 2 <= 0 -> u = 0 /\ v = 0 /\ w = 0.
Proof. intros H. nia. Qed.

(** X3.  Over any palette of byte colours, a colour of the palette is
    matched to itself. *)
Theorem matcher_fixes_palette (palette : list color) (p : color) :
  Forall byte_color palette -> p ∈ palette ->
  findClosestPaletteColor_with palette (Some p.1.1) (Some p.1.2) (Some p.2)
  = p.
Proof.
  intros Hpal Hp. destruct p as [[pr pg] pb]. simpl.
  assert (Hbyte : byte_color (pr, pg, pb))
    by (rewrite Forall_forall in Hpal; now apply Hpal).
  destruct Hbyte as (Hr & Hg & Hb).
  assert (Hne : palette <> []) by (intros ->; set_solver).
  pose proof (matcher_first_closest palette pr pg pb Hne Hpal Hr Hg Hb)
    as (i & Hi & Hmin & _).
  specialize (Hmin _ Hp).
  destruct (findClosestPaletteColor_with palette (Some pr) (Some pg) (Some pb))
    as [[qr qg] qb].
  unfold dist2 in Hmin.
  replace ((pr - pr) ^ 2 + (pg - pg) ^ 2 + (pb - pb) ^ 2) with 0 in Hmin
    by ring.
  apply sum_of_squares_zero in Hmin as (H0 & H1 & H2).
  f_equal; [f_equal|]; lia.
Qed.

Lemma matcher_fixes_palette_witness :
  findClosestPaletteColor_with PALETTE
    (Some (255, 0, 255).1.1) (Some (255, 0, 255).1.2) (Some (255, 0, 255).2)
  = (255, 0, 255).
Proof.
  apply (matcher_fixes_palette PALETTE (255, 0, 255)).
  - exact PALETTE_bytes.
  - unfold PALETTE. set_solver.
Defined.

(** * Further properties of the engine *)

(** X4.  [getPixelIndex] lays the pixels of the image out in scan order,
    four slots each, without overlap and inside an array of
    [4 * width * height] slots. *)
Theorem pixel_layout (w h x y x' y' : Z) :
  0 <= x < w -> 0 <= y < h -> 0 <= x' < w -> 0 <= y' < h ->
  0 <= getPixelIndex w x y /\
  getPixelIndex w x y + 3 < 4 * (w * h) /\
  (y < y' \/ (y = y' /\ x < x') <->
   getPixelIndex w x y + 3 < getPixelIndex w x' y') /\
  (getPixelIndex w x y = getPixelIndex w x' y' -> x = x' /\ y = y').
Proof.
  intros Hx Hy Hx' Hy'. rewrite !getPixelIndex_linear.
  assert (Hrows : forall u v, u < v -> u * w + w <= v * w) by (intros; nia).
  split; [nia|]. split; [pose proof (Hrows y h); nia|]. split; [split|].
  - intros [Hlt|[-> Hlt]]; [pose proof (Hrows y y' Hlt)|]; lia.
  - intros Hlt. destruct (Z.lt_trichotomy y y') as [Hy0|[->|Hy0]].
    + now left.
    + right. split; [reflexivity|lia].
    + pose proof (Hrows y' y Hy0). lia.
  - intros Heq. destruct (Z.lt_trichotomy y y') as [Hy0|[->|Hy0]].
    + pose proof (Hrows y y' Hy0). lia.
    + split; [lia|reflexivity].
    + pose proof (Hrows y' y Hy0). lia.
Qed.

Lemma pixel_layout_witness :
  0 <= getPixelIndex 3 2 1 /\
  getPixelIndex 3 2 1 + 3 < 4 * (3 * 2) /\
  (1 < 1 \/ (1 = 1 /\ 2 < 0) <->
   getPixelIndex 3 2 1 + 3 < getPixelIndex 3 0 1) /\
  (getPixelIndex 3 2 1 = getPixelIndex 3 0 1 -> 2 = 0 /\ 1 = 1).
Proof. apply (pixel_layout 3 2 2 1 0 1); lia. Defined.

Lemma scan_length (palette : list color) (w h : Z) (a : list Z) :
  length (scan array_get array_set palette w h a) = length a.
Proof.
  unfold scan.
  apply (fold_left_preserves (fun a' => length a' = length a));
    [|reflexivity].
  intros a' y Ha'. unfold scan_row.
  apply (fold_left_preserves (fun a'' => length a'' = length a));
    [|exact Ha'].
  intros a'' x Ha''. now rewrite process_pixel_length.
Qed.

(** X5.  The returned array has the length of the input array, whatever
    the declared width and height, and the image returned for a
    well-formed image is well-formed. *)
Theorem shape_preserved (palette : list color) (w h : Z) (d : list Z) :
  length (dither_array palette w h d) = length d /\
  (well_formed w h d -> well_formed w h (dither_array palette w h d)).
Proof.
  assert (Hlen : length (dither_array palette w h d) = length d).
  { unfold dither_array.
    now rewrite scan_length, Uint8ClampedArray_from_length. }
  split; [exact Hlen|].
  intros (Hw & Hh & Hd & _). repeat split; try assumption.
  - now rewrite Hlen.
  - apply scan_bytes, Uint8ClampedArray_from_bytes.
Qed.

Lemma shape_preserved_witness :
  well_formed 2 1 (dither_array PALETTE 2 1 grey_data).
Proof.
  destruct (shape_preserved PALETTE 2 1 grey_data) as [_ Hwf].
  apply Hwf. exact grey_well_formed.
Defined.

(** X6.  One step of the scan is local: it writes to the three colour
    slots of its pixel and of those of its four targets that are inside
    the image, and to no other slot of the array. *)
Theorem process_pixel_local (palette : list color) (w h : Z) (a : list Z)
  (x y j : Z) :
  (j < getPixelIndex w x y \/ getPixelIndex w x y + 2 < j) ->
  (forall dx dy factor,
     (dx, dy, factor) ∈ kernel ->
     in_bounds w h (x + dx) (y + dy) = true ->
     j < getPixelIndex w (x + dx) (y + dy) \/
     getPixelIndex w (x + dx) (y + dy) + 2 < j) ->
  array_get (process_pixel array_get array_set palette w h a x y) j
  = array_get a j.
Proof.
  intros Hown Htargets. unfold process_pixel.
  destruct findClosestPaletteColor_with as [[n0 n1] n2].
  rewrite !distributeError_get_other.
  - rewrite !array_get_set_ne by lia. reflexivity.
  - apply (Htargets 1 0 (7 # 16)). unfold kernel. repeat constructor.
  - apply (Htargets (-1) 1 (3 # 16)). unfold kernel. repeat constructor.
  - apply (Htargets 0 1 (5 # 16)). unfold kernel. repeat constructor.
  - apply (Htargets 1 1 (1 # 16)). unfold kernel. repeat constructor.
Qed.

Lemma process_pixel_local_witness :
  array_get (process_pixel array_get array_set PALETTE 2 1 grey_data 0 0) 7
  = array_get grey_data 7.
Proof.
  apply (process_pixel_local PALETTE 2 1 grey_data 0 0 7).
  - right. vm_compute. reflexivity.
  - intros dx dy factor Hk Hin. apply in_bounds_spec in Hin.
    rewrite getPixelIndex_linear. lia.
Defined.

(** X7.  A pixel is written for the last time when the scan visits it:
    every slot up to the end of pixel [(x, y)] holds in the output what it
    held right after the step at [(x, y)].  So the colour of an output
    pixel is the matcher's answer to the colour the pixel held when the
    scan reached it. *)
Theorem visited_pixel_is_final (palette : list color) (w h : Z) (d : list Z)
  (x y : Z) :
  0 <= x < w -> 0 <= y < h ->
  let before :=
    mid_pass array_get array_set palette w h (Uint8ClampedArray_from d) y x in
  let out := dither_array palette w h d in
  (forall j,
     j < getPixelIndex w x y + 4 ->
     array_get out j
     = array_get (process_pixel array_get array_set palette w h before x y) j)
  /\ (Z.of_nat (length d) = 4 * (w * h) -> Forall byte_color palette ->
      rgb_at out w x y
      = rgb_of (findClosestPaletteColor_with palette
                  (array_get before (getPixelIndex w x y))
                  (array_get before (getPixelIndex w x y + 1))
                  (array_get before (getPixelIndex w x y + 2)))).
Proof.
  intros Hx Hy before out. split.
  - intros j Hj. subst out before. unfold dither_array.
    now apply rest_keeps_visited.
  - intros Hlen Hpal.
    assert (Hbefore : Z.of_nat (length before) = 4 * (w * h)).
    { subst before. unfold mid_pass.
      rewrite <- Hlen, <- (Uint8ClampedArray_from_length d). f_equal.
      apply (fold_left_preserves
               (fun a' => length a' = length (Uint8ClampedArray_from d))).
      - intros a' x' Ha'. now rewrite process_pixel_length.
      - apply (fold_left_preserves
                 (fun a' => length a' = length (Uint8ClampedArray_from d)));
          [|reflexivity].
        intros a' y' Ha'. unfold scan_row.
        apply (fold_left_preserves
                 (fun a'' => length a'' = length (Uint8ClampedArray_from d)));
          [|exact Ha'].
        intros a'' x' Ha''. now rewrite process_pixel_length. }
    rewrite <- (process_pixel_current palette w h before x y Hx Hy Hbefore Hpal).
    unfold rgb_at. subst out. unfold dither_array.
    rewrite !(rest_keeps_visited palette w h _ x y) by (assumption || lia).
    reflexivity.
Qed.

Lemma visited_pixel_is_final_witness :
  array_get (dither_array PALETTE 2 1 grey_data) 0
  = array_get
      (process_pixel array_get array_set PALETTE 2 1
         (mid_pass array_get array_set PALETTE 2 1
            (Uint8ClampedArray_from grey_data) 0 0) 0 0) 0.
Proof.
  pose proof (visited_pixel_is_final PALETTE 2 1 grey_data 0 0
                ltac:(lia) ltac:(lia)) as H.
  cbv zeta in H. destruct H as [Hslots _].
  apply Hslots. vm_compute. reflexivity.
Defined.

(** X8.  The top-left pixel is quantized on its input colour, untouched
    by any diffusion; a 1x1 image becomes the nearest palette colour of its
    only pixel, with its alpha. *)
Theorem first_pixel (palette : list color) (w h : Z) (d : list Z) :
  0 < w -> 0 < h ->
  Z.of_nat (length d) = 4 * (w * h) ->
  Forall is_byte d -> Forall byte_color palette ->
  rgb_at (dither_array palette w h d) w 0 0
  = rgb_of (findClosestPaletteColor_with palette
              (array_get d 0) (array_get d 1) (array_get d 2))
  /\ (w = 1 -> h = 1 ->
      exists r g b alpha,
        d = [r; g; b; alpha] /\
        dither_array palette w h d
        = let '(n0, n1, n2) :=
            findClosestPaletteColor_with palette (Some r) (Some g) (Some b) in
          [n0; n1; n2; alpha]).
Proof.
  intros Hw Hh Hlen Hbytes Hpal.
  pose proof (visited_pixel_is_final palette w h d 0 0 ltac:(lia) ltac:(lia))
    as Hfinal.
  cbv zeta in Hfinal. destruct Hfinal as [_ Hrgb].
  specialize (Hrgb Hlen Hpal).
  unfold mid_pass in Hrgb. rewrite !seqZ_nil in Hrgb by lia.
  simpl in Hrgb. rewrite Uint8ClampedArray_from_id in Hrgb by assumption.
  split; [exact Hrgb|].
  intros -> ->.
  destruct d as [|r [|g [|b [|alpha [|extra d]]]]]; simpl in Hlen; try lia.
  exists r, g, b, alpha. split; [reflexivity|].
  pose proof (shape_preserved palette 1 1 [r; g; b; alpha]) as [Hlen' _].
  pose proof (alpha_kept palette 1 1
                (Uint8ClampedArray_from [r; g; b; alpha]) 0) as Halpha.
  fold (dither_array palette 1 1 [r; g; b; alpha]) in Halpha.
  rewrite Uint8ClampedArray_from_id in Halpha by assumption.
  unfold rgb_at in Hrgb.
  change (getPixelIndex 1 0 0) with 0 in Hrgb.
  change (array_get [r; g; b; alpha] 0) with (Some r) in Hrgb.
  change (array_get [r; g; b; alpha] (0 + 1)) with (Some g) in Hrgb.
  change (array_get [r; g; b; alpha] (0 + 2)) with (Some b) in Hrgb.
  change (array_get [r; g; b; alpha] (0 * 4 + 3)) with (Some alpha) in Halpha.
  destruct (findClosestPaletteColor_with palette (Some r) (Some g) (Some b))
    as [[n0 n1] n2].
  destruct (dither_array palette 1 1 [r; g; b; alpha])
    as [|o0 [|o1 [|o2 [|o3 [|o4 out]]]]]; simpl in Hlen'; try lia.
  change (array_get [o0; o1; o2; o3] 0) with (Some o0) in Hrgb.
  change (array_get [o0; o1; o2; o3] (0 + 1)) with (Some o1) in Hrgb.
  change (array_get [o0; o1; o2; o3] (0 + 2)) with (Some o2) in Hrgb.
  change (array_get [o0; o1; o2; o3] (0 * 4 + 3)) with (Some o3) in Halpha.
  simpl in Hrgb. congruence.
Qed.

Lemma first_pixel_witness :
  rgb_at (dither_array PALETTE 2 1 grey_data) 2 0 0
  = rgb_of (findClosestPaletteColor_with PALETTE
              (array_get grey_data 0) (array_get grey_data 1)
              (array_get grey_data 2)).
Proof.
  destruct (first_pixel PALETTE 2 1 grey_data) as [Hrgb _];
    try lia; try exact PALETTE_bytes; try apply grey_well_formed.
  exact Hrgb.
Defined.

(** ** Images that are already quantized *)

Lemma ToUint8Clamp_Qeq (q q' : Q) :
  (q == q')%Q -> ToUint8Clamp (Some q) = ToUint8Clamp (Some q').
Proof.
  intros Hq. unfold ToUint8Clamp.
  assert (E0 : Qle_bool q 0 = Qle_bool q' 0) by now rewrite Hq.
  assert (E1 : Qle_bool 255 q = Qle_bool 255 q') by now rewrite Hq.
  rewrite <- E0, <- E1.
  destruct (Qle_bool q 0); [reflexivity|].
  destruct (Qle_bool 255 q); [reflexivity|].
  rewrite <- (Qfloor_comp _ _ Hq).
  now rewrite <- (Qcompare_comp _ _ Hq _ _ (Qeq_refl _)).
Qed.

(** Adding a share of the error 0 stores the value that was there. *)
Lemma array_set_zero_error (a : list Z) (i : Z) (factor : Q) :
  Forall is_byte a ->
  array_set a i (number_add (array_get a i) (number_scale (Some 0) factor))
  = a.
Proof.
  intros Ha. unfold array_set, array_get.
  destruct (Z.ltb_spec i 0); [reflexivity|].
  destruct (a !! Z.to_nat i) as [v|] eqn:E.
  - apply list_insert_id. rewrite E. f_equal.
    cbn [number_add number_scale].
    rewrite (ToUint8Clamp_Qeq _ (inject_Z v)) by ring.
    symmetry. apply ToUint8Clamp_inject_Z.
    rewrite Forall_forall in Ha. apply Ha.
    eapply list_elem_of_lookup_2. exact E.
  - apply list_insert_ge. now apply lookup_ge_None.
Qed.

Lemma distributeError_zero (w h x y : Z) (a : list Z) (dx dy : Z)
  (factor : Q) :
  Forall is_byte a ->
  distributeError array_get array_set w h x y (Some 0, Some 0, Some 0)
    a dx dy factor = a.
Proof.
  intros Ha. destruct (in_bounds w h (x + dx) (y + dy)) eqn:E.
  - rewrite distributeError_hit by assumption. cbv zeta.
    now rewrite !(array_set_zero_error a) by assumption.
  - now rewrite distributeError_skip.
Qed.

Lemma array_set_same (a : list Z) (i v : Z) :
  is_byte v -> array_get a i = Some v ->
  array_set a i (Some (inject_Z v)) = a.
Proof.
  intros Hv Hget. unfold array_set, array_get in *.
  destruct (i <? 0); [discriminate|].
  apply list_insert_id. now rewrite ToUint8Clamp_inject_Z.
Qed.

(** A pixel that holds a palette colour is left as it is, and so are its
    neighbours. *)
Lemma process_pixel_quantized (palette : list color) (w h : Z) (a : list Z)
  (x y : Z) (p : color) :
  Forall byte_color palette -> Forall is_byte a ->
  p ∈ palette -> rgb_at a w x y = rgb_of p ->
  process_pixel array_get array_set palette w h a x y = a.
Proof.
  intros Hpal Ha Hp Hrgb.
  pose proof (matcher_fixes_palette palette p Hpal Hp) as Hfix.
  assert (Hbyte : byte_color p)
    by (rewrite Forall_forall in Hpal; now apply Hpal).
  destruct p as [[pr pg] pb]. destruct Hbyte as (Hr & Hg & Hb).
  unfold rgb_at in Hrgb. simpl in Hrgb, Hfix.
  injection Hrgb as H0 H1 H2.
  unfold process_pixel. rewrite H0, H1, H2, Hfix. cbv beta iota zeta.
  rewrite (array_set_same a _ pr) by assumption.
  rewrite (array_set_same a _ pg) by assumption.
  rewrite (array_set_same a _ pb) by assumption.
  cbn [number_sub]. rewrite !Z.sub_diag.
  now rewrite !(distributeError_zero w h x y a) by assumption.
Qed.

(** X9.  An image whose pixels all hold palette colours is a fixed point
    of the engine: the array returned holds the bytes of the input. *)
Theorem quantized_image_fixed (palette : list color) (w h : Z) (d : list Z) :
  Forall byte_color palette -> Forall is_byte d ->
  (forall x y, 0 <= x < w -> 0 <= y < h ->
     exists p, p ∈ palette /\ rgb_at d w x y = rgb_of p) ->
  dither_array palette w h d = d.
Proof.
  intros Hpal Hd Hquantized. unfold dither_array, scan.
  rewrite Uint8ClampedArray_from_id by assumption.
  apply (fold_left_preserves_in (fun a => a = d)); [|reflexivity].
  intros a y Hy ->. apply elem_of_seqZ in Hy. unfold scan_row.
  apply (fold_left_preserves_in (fun a => a = d)); [|reflexivity].
  intros a x Hx ->. apply elem_of_seqZ in Hx.
  destruct (Hquantized x y) as (p & Hp & Hrgb); try lia.
  now apply (process_pixel_quantized palette w h d x y p).
Qed.

Lemma quantized_image_fixed_witness :
  dither_array PALETTE 2 1 [255; 0; 255; 255; 0; 0; 0; 9]
  = [255; 0; 255; 255; 0; 0; 0; 9].
Proof.
  apply (quantized_image_fixed PALETTE 2 1).
  - exact PALETTE_bytes.
  - unfold is_byte. repeat constructor; lia.
  - intros x y Hx Hy.
    assert (Hy0 : y = 0) by lia. subst y.
    assert (Hx0 : x = 0 \/ x = 1) by lia.
    destruct Hx0 as [-> | ->].
    + exists (255, 0, 255). split; [|reflexivity].
      unfold PALETTE. repeat constructor.
    + exists (0, 0, 0). split; [|reflexivity].
      unfold PALETTE. repeat constructor.
Defined.

(** X10.  Dithering is idempotent: dithering the image a call returned
    returns an image with the same bytes. *)
Theorem dithering_idempotent (hp : heap) (imageData : ImageData)
  (d : list Z) :
  hp !! data imageData = Some d ->
  well_formed (width imageData) (height imageData) d ->
  let '(hp', out) := floydSteinbergDithering hp imageData in
  dithered hp' out = dithered hp imageData.
Proof.
  intros Hd Hwf.
  pose proof (call_heap PALETTE hp imageData d Hd) as Hcall.
  assert (Hfirst : dithered hp imageData
                   = dither_array PALETTE (width imageData)
                       (height imageData) d).
  { unfold dithered. rewrite dithered_with_array. unfold contents.
    now rewrite Hd. }
  unfold floydSteinbergDithering.
  destruct (floydSteinbergDithering_with PALETTE hp imageData) as [hp' out].
  destruct Hcall as (_ & _ & _ & _ & Hout & Hw & Hh).
  rewrite Hfirst. unfold dithered. rewrite dithered_with_array.
  unfold contents. rewrite Hout, Hw, Hh. simpl.
  destruct (shape_preserved PALETTE (width imageData) (height imageData) d)
    as [_ Hwf'].
  destruct (Hwf' Hwf) as (Hw0 & Hh0 & Hlen' & Hbytes').
  destruct Hwf as (_ & _ & Hlen & _).
  apply quantized_image_fixed; [exact PALETTE_bytes|assumption|].
  intros x y Hx Hy.
  pose proof (finalized_scan PALETTE _ _ Hw0 Hh0 PALETTE_bytes d Hlen) as Hfin.
  destruct (finalized_rgb_at _ (width imageData) (height imageData) _ _
              x y Hfin) as (p & Hp & Hrgb); try lia; [nia|].
  exists p. split; [now apply PALETTE_has_black|assumption].
Qed.

Lemma dithering_idempotent_witness :
  let '(hp', out) := floydSteinbergDithering grey_heap grey_image in
  dithered hp' out = dithered grey_heap grey_image.
Proof.
  exact (dithering_idempotent grey_heap grey_image grey_data eq_refl
           grey_well_formed).
Defined.

(** ** The channels do not mix *)

Lemma slot_channel (m k : Z) : 0 <= k < 4 -> (m * 4 + k) mod 4 = k.
Proof.
  intros Hk. rewrite Z.add_comm, Z_mod_plus_full. now apply Z.mod_small.
Qed.

Lemma array_set_same_channel (c : Z) (a a' : list Z) (i : Z)
  (v v' : fraction) :
  0 <= c < 4 ->
  length a' = length a ->
  same_channel c a a' ->
  (i mod 4 = c -> ToUint8Clamp v = ToUint8Clamp v') ->
  same_channel c (array_set a i v) (array_set a' i v').
Proof.
  intros Hc Hlen Hsame Hval m.
  destruct (Z.eq_dec i (m * 4 + c)) as [->|Hne].
  - specialize (Hsame m). unfold array_get, array_set in *.
    destruct (Z.ltb_spec (m * 4 + c) 0); [reflexivity|].
    destruct (decide (Z.to_nat (m * 4 + c) < length a)%nat) as [Hin|Hout].
    + rewrite !list_lookup_insert_eq by lia. f_equal.
      apply Hval. now apply slot_channel.
    + rewrite !list_insert_ge by lia. exact Hsame.
  - rewrite !array_get_set_ne by assumption. apply Hsame.
Qed.

Lemma distributeError_same_channel (c w h x y : Z)
  (e0 e1 e2 e0' e1' e2' : number) (a a' : list Z) (dx dy : Z) (factor : Q) :
  0 <= c < 4 ->
  length a' = length a ->
  same_channel c a a' ->
  (c = 0 -> e0 = e0') -> (c = 1 -> e1 = e1') -> (c = 2 -> e2 = e2') ->
  same_channel c
    (distributeError array_get array_set w h x y (e0, e1, e2) a dx dy factor)
    (distributeError array_get array_set w h x y (e0', e1', e2') a'
       dx dy factor).
Proof.
  intros Hc Hlen Hsame H0 H1 H2.
  destruct (in_bounds w h (x + dx) (y + dy)) eqn:E.
  - rewrite !distributeError_hit by assumption. cbv zeta.
    rewrite getPixelIndex_linear.
    set (m := (y + dy) * w + (x + dx)).
    apply array_set_same_channel; try assumption.
    + now rewrite !array_set_length.
    + apply array_set_same_channel; try assumption.
      * now rewrite !array_set_length.
      * apply array_set_same_channel; try assumption.
        intros Hmod.
        replace (m * 4) with (m * 4 + 0) in Hmod by lia.
        rewrite slot_channel in Hmod by lia.
        rewrite <- (H0 (eq_sym Hmod)).
        specialize (Hsame m). rewrite <- Hmod in Hsame.
        rewrite Z.add_0_r in Hsame. now rewrite Hsame.
      * intros Hmod. rewrite slot_channel in Hmod by lia.
        rewrite <- (H1 (eq_sym Hmod)).
        assert (Hprev : same_channel c
                  (array_set a (m * 4)
                     (number_add (array_get a (m * 4))
                        (number_scale e0 factor)))
                  (array_set a' (m * 4)
                     (number_add (array_get a' (m * 4))
                        (number_scale e0' factor)))).
        { apply array_set_same_channel; try assumption.
          intros Hmod'. replace (m * 4) with (m * 4 + 0) in Hmod' by lia.
          rewrite slot_channel in Hmod' by lia. lia. }
        specialize (Hprev m). rewrite <- Hmod in Hprev. now rewrite Hprev.
    + intros Hmod. rewrite slot_channel in Hmod by lia.
      rewrite <- (H2 (eq_sym Hmod)).
      rewrite !(array_get_set_ne _ _ (m * 4 + 2)) by lia.
      specialize (Hsame m). rewrite <- Hmod in Hsame. now rewrite Hsame.
  - now rewrite !distributeError_skip.
Qed.

Lemma fold_left_lockstep {A B : Type} (R : A -> A -> Prop)
  (body : A -> B -> A) (xs : list B) (a a' : A) :
  (forall a a' x, x ∈ xs -> R a a' -> R (body a x) (body a' x)) ->
  R a a' ->
  R (fold_left body xs a) (fold_left body xs a').
Proof.
  revert a a'. induction xs as [|x xs IH]; intros a a' Hbody Ha; simpl.
  - exact Ha.
  - apply IH.
    + intros b b' x' Hx'. apply Hbody. now right.
    + apply Hbody; [now left|exact Ha].
Qed.

(** With the palette of the source, what a step writes to a channel
    depends on that channel alone. *)
Lemma process_pixel_same_channel (c w h : Z) (a a' : list Z) (x y : Z) :
  0 <= c < 3 -> 0 <= x < w -> 0 <= y < h ->
  Z.of_nat (length a) = 4 * (w * h) -> length a' = length a ->
  Forall is_byte a -> Forall is_byte a' ->
  same_channel c a a' ->
  same_channel c
    (process_pixel array_get array_set PALETTE w h a x y)
    (process_pixel array_get array_set PALETTE w h a' x y).
Proof.
  intros Hc Hx Hy Hlen Hlen' Ha Ha' Hsame.
  pose proof (pixel_index_in_range w h x y 0 Hx Hy ltac:(lia)) as R0.
  pose proof (pixel_index_in_range w h x y 1 Hx Hy ltac:(lia)) as R1.
  pose proof (pixel_index_in_range w h x y 2 Hx Hy ltac:(lia)) as R2.
  rewrite Z.add_0_r in R0.
  assert (Hsame0 := Hsame (y * w + x)).
  rewrite getPixelIndex_linear in *.
  set (m := y * w + x) in *.
  destruct (array_get_in_range a (m * 4)) as [v0 E0]; [lia|].
  destruct (array_get_in_range a (m * 4 + 1)) as [v1 E1]; [lia|].
  destruct (array_get_in_range a (m * 4 + 2)) as [v2 E2]; [lia|].
  destruct (array_get_in_range a' (m * 4)) as [v0' E0']; [lia|].
  destruct (array_get_in_range a' (m * 4 + 1)) as [v1' E1']; [lia|].
  destruct (array_get_in_range a' (m * 4 + 2)) as [v2' E2']; [lia|].
  assert (H0 : c = 0 -> v0 = v0').
  { intros ->. rewrite Z.add_0_r in Hsame0. congruence. }
  assert (H1 : c = 1 -> v1 = v1') by (intros ->; congruence).
  assert (H2 : c = 2 -> v2 = v2') by (intros ->; congruence).
  unfold process_pixel. rewrite getPixelIndex_linear. fold m.
  rewrite E0, E1, E2, E0', E1', E2'.
  change (findClosestPaletteColor_with PALETTE) with findClosestPaletteColor.
  destruct (matcher_is_threshold v0 v1 v2) as [-> _];
    try (eapply (array_get_byte a); eassumption).
  destruct (matcher_is_threshold v0' v1' v2') as [-> _];
    try (eapply (array_get_byte a'); eassumption).
  cbv beta iota zeta. cbn [number_sub].
  assert (Hquantized : same_channel c
            (array_set
               (array_set
                  (array_set a (m * 4) (Some (inject_Z (threshold v0))))
                  (m * 4 + 1) (Some (inject_Z (threshold v1))))
               (m * 4 + 2) (Some (inject_Z (threshold v2))))
            (array_set
               (array_set
                  (array_set a' (m * 4) (Some (inject_Z (threshold v0'))))
                  (m * 4 + 1) (Some (inject_Z (threshold v1'))))
               (m * 4 + 2) (Some (inject_Z (threshold v2'))))).
  { apply array_set_same_channel; try lia.
    - now rewrite !array_set_length.
    - apply array_set_same_channel; try lia.
      + now rewrite !array_set_length.
      + apply array_set_same_channel; try lia; try assumption.
        intros Hmod. replace (m * 4) with (m * 4 + 0) in Hmod by lia.
        rewrite slot_channel in Hmod by lia. now rewrite H0.
      + intros Hmod. rewrite slot_channel in Hmod by lia. now rewrite H1.
    - intros Hmod. rewrite slot_channel in Hmod by lia. now rewrite H2. }
  repeat (apply distributeError_same_channel;
          [lia
          |now rewrite ?distributeError_length, ?array_set_length
          |
          |intros Hc0; now rewrite (H0 Hc0)
          |intros Hc1; now rewrite (H1 Hc1)
          |intros Hc2; now rewrite (H2 Hc2)]).
  exact Hquantized.
Qed.

(** X11.  With the palette of the source the three colour channels are
    dithered independently: the values the output holds in one colour
    channel depend on the values the input holds in that channel only, not
    on the other two channels and not on alpha. *)
Theorem channels_independent (c w h : Z) (d d' : list Z) :
  0 <= c < 3 ->
  well_formed w h d -> well_formed w h d' ->
  same_channel c d d' ->
  same_channel c (dither_array PALETTE w h d) (dither_array PALETTE w h d').
Proof.
  intros Hc (Hw & Hh & Hlen & Hd) (_ & _ & Hlen' & Hd') Hsame.
  unfold dither_array. rewrite !Uint8ClampedArray_from_id by assumption.
  set (R := fun a a' : list Z =>
              Z.of_nat (length a) = 4 * (w * h) /\ length a' = length a /\
              Forall is_byte a /\ Forall is_byte a' /\ same_channel c a a').
  assert (Hstep : forall a a' x y,
            0 <= x < w -> 0 <= y < h -> R a a' ->
            R (process_pixel array_get array_set PALETTE w h a x y)
              (process_pixel array_get array_set PALETTE w h a' x y)).
  { intros a a' x y Hx Hy (Hl & Hl' & Hb & Hb' & Hs). repeat split.
    - now rewrite process_pixel_length.
    - now rewrite !process_pixel_length.
    - now apply process_pixel_bytes.
    - now apply process_pixel_bytes.
    - now apply process_pixel_same_channel. }
  assert (Hscan : R (scan array_get array_set PALETTE w h d)
                    (scan array_get array_set PALETTE w h d')).
  { unfold scan. apply fold_left_lockstep.
    - intros a a' y Hy Ha. apply elem_of_seqZ in Hy. unfold scan_row.
      apply fold_left_lockstep; [|exact Ha].
      intros b b' x Hx Hb. apply elem_of_seqZ in Hx.
      apply Hstep; [lia|lia|exact Hb].
    - repeat split; try assumption. lia. }
  now destruct Hscan as (_ & _ & _ & _ & Hresult).
Qed.

Lemma channels_independent_witness :
  same_channel 0
    (dither_array PALETTE 2 1 grey_data)
    (dither_array PALETTE 2 1 [128; 7; 200; 0; 128; 250; 3; 99]).
Proof.
  apply (channels_independent 0 2 1 grey_data
           [128; 7; 200; 0; 128; 250; 3; 99]).
  - lia.
  - exact grey_well_formed.
  - unfold well_formed, is_byte.
    repeat split; try reflexivity; try lia. repeat constructor; lia.
  - intros m.
    destruct (Z.eq_dec m 0) as [->|H0]; [reflexivity|].
    destruct (Z.eq_dec m 1) as [->|H1]; [reflexivity|].
    unfold array_get. destruct (Z.ltb_spec (m * 4 + 0) 0); [reflexivity|].
    rewrite !lookup_ge_None_2; [reflexivity|simpl; lia|simpl; lia].
Defined.

(** X12.  With a width or a height that is zero (or negative) the loops
    do not run: the array returned is the copy of the input array. *)
Theorem empty_image_copied (palette : list color) (w h : Z) (d : list Z) :
  w <= 0 \/ h <= 0 ->
  dither_array palette w h d = Uint8ClampedArray_from d
  /\ (Forall is_byte d -> dither_array palette w h d = d).
Proof.
  intros Hempty.
  assert (Hcopy : dither_array palette w h d = Uint8ClampedArray_from d).
  { unfold dither_array, scan. destruct Hempty as [Hw|Hh].
    - apply (fold_left_preserves (fun a => a = Uint8ClampedArray_from d));
        [|reflexivity].
      intros a y ->. unfold scan_row. now rewrite seqZ_nil.
    - now rewrite seqZ_nil. }
  split; [exact Hcopy|].
  intros Hd. now rewrite Hcopy, Uint8ClampedArray_from_id.
Qed.

Lemma empty_image_copied_witness :
  dither_array PALETTE 0 5 [] = Uint8ClampedArray_from [].
Proof.
  destruct (empty_image_copied PALETTE 0 5 []) as [Hcopy _]; [left; lia|].
  exact Hcopy.
Defined.

(** ** How far one share of the error moves a value *)

(** ToUint8Clamp is 0 up to 0, 255 from 255 on, and in between an integer
    at most one half away. *)
Lemma ToUint8Clamp_spec (q : Q) :
  let r := ToUint8Clamp (Some q) in
  ((q <= 0)%Q -> r = 0) /\
  ((255 <= q)%Q -> r = 255) /\
  ((0 <= q <= 255)%Q ->
   (inject_Z r - (1 # 2) <= q <= inject_Z r + (1 # 2))%Q).
Proof.
  intros r. destruct q as [qn qd].
  destruct (Qle_bool (qn # qd) 0) eqn:E0.
  - assert (Hr : r = 0)
      by (subst r; unfold ToUint8Clamp; now rewrite E0).
    apply Qle_bool_iff in E0. rewrite Hr.
    unfold Qle in *. simpl in *.
    split; [reflexivity|]. split; intros; lia.
  - assert (Hpos : (0 < qn # qd)%Q).
    { apply Qnot_le_lt. rewrite <- Qle_bool_iff. congruence. }
    destruct (Qle_bool 255 (qn # qd)) eqn:E1.
    + assert (Hr : r = 255)
        by (subst r; unfold ToUint8Clamp; now rewrite E0, E1).
      apply Qle_bool_iff in E1. rewrite Hr.
      unfold Qle, Qlt in *. simpl in *.
      split; [intros; lia|]. split; [reflexivity|]. intros; lia.
    + assert (Hlt : (qn # qd < 255)%Q).
      { apply Qnot_le_lt. rewrite <- Qle_bool_iff. congruence. }
      pose proof (Qfloor_le (qn # qd)) as Hfloor.
      pose proof (Qlt_floor (qn # qd)) as Hceil.
      assert (Hr : r = match (qn # qd ?= inject_Z (Qfloor (qn # qd)) + (1 # 2))%Q
                       with
                       | Eq => if Z.even (Qfloor (qn # qd))
                               then Qfloor (qn # qd)
                               else Qfloor (qn # qd) + 1
                       | Lt => Qfloor (qn # qd)
                       | Gt => Qfloor (qn # qd) + 1
                       end)
        by (subst r; unfold ToUint8Clamp; now rewrite E0, E1).
      rewrite Hr. clear Hr r E0 E1.
      set (f := Qfloor (qn # qd)) in *.
      destruct (Qcompare_spec (qn # qd) (inject_Z f + (1 # 2)))
        as [Heq|Hl|Hg];
        [destruct (Z.even f)| |];
        unfold Qle, Qlt, Qeq in *; simpl in *;
        (split; [intros; lia|]); (split; [intros; lia|]); intros; lia.
Qed.

Lemma kernel_factors (dx dy : Z) (factor : Q) :
  (dx, dy, factor) ∈ kernel ->
  factor = 7 # 16 \/ factor = 3 # 16 \/ factor = 5 # 16 \/ factor = 1 # 16.
Proof.
  unfold kernel. rewrite !elem_of_cons, elem_of_nil.
  intros [H|[H|[H|[H|[]]]]]; injection H as _ _ ->; tauto.
Qed.

Lemma share_bounded (v e : Z) (factor : Q) :
  is_byte v -> -127 <= e <= 127 ->
  factor = 7 # 16 \/ factor = 3 # 16 \/ factor = 5 # 16 \/ factor = 1 # 16 ->
  let v' :=
    ToUint8Clamp (number_add (Some v) (number_scale (Some e) factor)) in
  -56 <= v' - v <= 56 /\ (0 <= e -> v <= v') /\ (e <= 0 -> v' <= v).
Proof.
  unfold is_byte. intros Hv He Hfactor. cbn [number_add number_scale].
  set (q := (inject_Z v + inject_Z e * factor)%Q).
  pose proof (ToUint8Clamp_is_byte (Some q)) as Hbyte.
  destruct (ToUint8Clamp_spec q) as (Hlow & Hhigh & Hmid).
  cbv zeta in *. unfold is_byte in Hbyte.
  set (r := ToUint8Clamp (Some q)) in *.
  destruct (Qlt_le_dec 0 q) as [Hpos|Hneg].
  - destruct (Qlt_le_dec q 255) as [Hin|Hout].
    + specialize (Hmid (conj (Qlt_le_weak _ _ Hpos) (Qlt_le_weak _ _ Hin))).
      clear Hlow Hhigh. subst q.
      destruct Hfactor as [->|[->|[->| ->]]];
        unfold Qle, Qlt in *; simpl in *; lia.
    + specialize (Hhigh Hout). clear Hlow Hmid. subst q.
      destruct Hfactor as [->|[->|[->| ->]]];
        unfold Qle, Qlt in *; simpl in *; lia.
  - specialize (Hlow Hneg). clear Hhigh Hmid. subst q.
    destruct Hfactor as [->|[->|[->| ->]]];
      unfold Qle, Qlt in *; simpl in *; lia.
Qed.

(** X13.  One call of [distributeError] with errors between -127 and 127
    (the errors of the palette of the source) moves each colour channel of
    its target by at most 56, and in the direction of the error: up or not
    at all for a positive error, down or not at all for a negative one. *)
Theorem diffusion_step_bounded (w h x y : Z) (z0 z1 z2 : Z) (a : list Z)
  (dx dy : Z) (factor : Q) (k : Z) :
  (dx, dy, factor) ∈ kernel ->
  in_bounds w h (x + dx) (y + dy) = true ->
  Z.of_nat (length a) = 4 * (w * h) -> Forall is_byte a ->
  -127 <= z0 <= 127 -> -127 <= z1 <= 127 -> -127 <= z2 <= 127 ->
  0 <= k <= 2 ->
  let n := getPixelIndex w (x + dx) (y + dy) in
  let z := if k =? 0 then z0 else if k =? 1 then z1 else z2 in
  exists v v',
    array_get a (n + k) = Some v /\
    array_get
      (distributeError array_get array_set w h x y (Some z0, Some z1, Some z2)
         a dx dy factor) (n + k) = Some v' /\
    -56 <= v' - v <= 56 /\ (0 <= z -> v <= v') /\ (z <= 0 -> v' <= v).
Proof.
  intros Hkernel Hin Hlen Ha Hz0 Hz1 Hz2 Hk n z.
  apply kernel_factors in Hkernel.
  pose proof Hin as Hxy. apply in_bounds_spec in Hxy as [Hnx Hny].
  pose proof (pixel_index_in_range w h _ _ 0 Hnx Hny ltac:(lia)) as R0.
  pose proof (pixel_index_in_range w h _ _ 2 Hnx Hny ltac:(lia)) as R2.
  fold n in R0, R2.
  destruct (distributeError_get_target w h x y (Some z0) (Some z1) (Some z2)
              a dx dy factor Hin ltac:(fold n; lia)) as (T0 & T1 & T2).
  fold n in T0, T1, T2.
  destruct (array_get_in_range a (n + k)) as [v Hv]; [lia|].
  assert (Hbyte : is_byte v) by (eapply array_get_byte; eassumption).
  exists v. subst z.
  assert (Hcases : k = 0 \/ k = 1 \/ k = 2) by lia.
  destruct Hcases as [->|[->| ->]]; cbn [Z.eqb Pos.eqb].
  - replace (n + 0) with n in * by lia. rewrite Hv in T0. eexists.
    split; [exact Hv|]. split; [exact T0|]. now apply share_bounded.
  - rewrite Hv in T1. eexists.
    split; [exact Hv|]. split; [exact T1|]. now apply share_bounded.
  - rewrite Hv in T2. eexists.
    split; [exact Hv|]. split; [exact T2|]. now apply share_bounded.
Qed.

Lemma diffusion_step_bounded_witness :
  let n := getPixelIndex 2 (0 + 1) (0 + 0) in
  let z := if 0 =? 0 then 100 else if 0 =? 1 then 100 else 100 in
  exists v v',
    array_get bright_data (n + 0) = Some v /\
    array_get
      (distributeError array_get array_set 2 1 0 0
         (Some 100, Some 100, Some 100) bright_data 1 0 (7 # 16)) (n + 0)
    = Some v' /\
    -56 <= v' - v <= 56 /\ (0 <= z -> v <= v') /\ (z <= 0 -> v' <= v).
Proof.
  apply (diffusion_step_bounded 2 1 0 0 100 100 100 bright_data 1 0 (7 # 16) 0);
    try lia.
  - unfold kernel. repeat constructor.
  - reflexivity.
  - reflexivity.
  - unfold bright_data, is_byte. repeat constructor; lia.
Defined.

(** * Properties of the command line *)

Ltac main_cases argv existsSync processImage :=
  unfold main;
  destruct (drop 2 argv) as [|inputPath [|outputPath rest]];
  [ | | destruct (existsSync inputPath) eqn:Hexists;
        [destruct (processImage inputPath outputPath) eqn:Hsettled|] ];
  cbn [negb].

(** X14.  [main] calls [processImage] only on an input file that
    [fs.existsSync] has found, with the first two arguments of the command
    line, right after that check, and at most once. *)
Theorem main_processes_existing_input (argv : list string)
  (existsSync : string -> bool)
  (processImage : string -> string -> settlement) (i o : string) (k : nat) :
  main argv existsSync processImage !! k = Some (ProcessImage i o) ->
  k = 1%nat /\
  existsSync i = true /\
  drop 2 argv !! 0%nat = Some i /\
  drop 2 argv !! 1%nat = Some o /\
  main argv existsSync processImage !! 0%nat = Some (ExistsSync i).
Proof.
  main_cases argv existsSync processImage; intros Hk;
    repeat (destruct k as [|k]; try discriminate);
    injection Hk as -> ->; repeat split; assumption.
Qed.

Lemma main_processes_existing_input_witness :
  let argv := ["node"; "main.ts"; "in.png"; "out.png"]%string in
  1%nat = 1%nat /\
  (fun _ : string => true) "in.png"%string = true /\
  drop 2 argv !! 0%nat = Some "in.png"%string /\
  drop 2 argv !! 1%nat = Some "out.png"%string /\
  main argv (fun _ => true) (fun _ _ => Resolved) !! 0%nat
  = Some (ExistsSync "in.png"%string).
Proof.
  exact (main_processes_existing_input
           ["node"; "main.ts"; "in.png"; "out.png"]%string
           (fun _ => true) (fun _ _ => Resolved)
           "in.png"%string "out.png"%string 1 eq_refl).
Defined.

(** X15.  Every exit of [main] is [process.exit(1)], it is the last thing
    [main] does, and an error message was printed before it.  The success
    message is printed only when there are two arguments, the input file
    exists and [processImage] has resolved, and then [main] does not call
    [process.exit]. *)
Theorem main_exit_status (argv : list string) (existsSync : string -> bool)
  (processImage : string -> string -> settlement) :
  let trace := main argv existsSync processImage in
  (forall code, Exit code ∈ trace ->
     code = 1 /\ last trace = Some (Exit 1) /\
     exists message, ConsoleError message ∈ trace) /\
  (forall message, ConsoleLog message ∈ trace ->
     exists i o rest,
       drop 2 argv = i :: o :: rest /\
       existsSync i = true /\
       processImage i o = Resolved /\
       message = [success_message o] /\
       last trace = Some (ConsoleLog message) /\
       forall code, Exit code ∉ trace).
Proof.
  main_cases argv existsSync processImage; split.
  all: try (intros code Hin;
            repeat (apply elem_of_cons in Hin as [Hin|Hin];
                    [try discriminate; injection Hin as ->|]);
            try (apply elem_of_nil in Hin; contradiction);
            split; [reflexivity|]; split; [reflexivity|];
            eexists; rewrite !elem_of_cons; eauto).
  all: intros message Hin;
       repeat (apply elem_of_cons in Hin as [Hin|Hin];
               [try discriminate; injection Hin as ->|]);
       try (apply elem_of_nil in Hin; contradiction).
  exists inputPath, outputPath, rest.
  repeat split; try assumption; try reflexivity.
  intros code Hin.
  repeat (apply elem_of_cons in Hin as [Hin|Hin]; [discriminate|]).
  now apply elem_of_nil in Hin.
Qed.
